(** * PEP 440 range rewriting (renovate, lib/versioning/pep440/range.ts)

    A shallow embedding of the two snapshots of the range module that the
    repository carries:

    - [RangeTs]  : src/lib/versioning/pep440/range.ts
                   (two-flag [found]/[set] future-version scan, only [bump]
                   tightens a [>=] bound);
    - [Part001]  : src/unnamed/part_001
                   (single-flag scan, replace-precision inference,
                   [replace] and [bump] tighten a [>=] bound, [widen] is an
                   accepted strategy).

    The functions imported from [@renovatebot/pep440] are an interface
    ([Pep440.Lib]); the general theorems hold for every implementation of
    it.  [Release.lib] is an executable implementation for final releases
    [N(.N)*], used to run the scenarios. *)

From Stdlib Require Import Ascii String NArith ZArith Lia.
From stdpp Require Import base list strings pretty.

Open Scope string_scope.
Open Scope list_scope.

(** ** Outcomes of a JavaScript call: a value, or a raised exception *)

Inductive outcome (A : Type) : Type :=
| Ret (a : A)
| Throw.
Arguments Ret {A} a.
Arguments Throw {A}.

Global Instance outcome_ret : MRet outcome := fun A a => Ret a.
Global Instance outcome_bind : MBind outcome := fun A B k m =>
  match m with
  | Ret a => k a
  | Throw => Throw
  end.

(** [try { body } catch (err) { return handler }] *)
Definition try_catch {A} (body : outcome A) (handler : A) : outcome A :=
  match body with
  | Ret a => Ret a
  | Throw => Ret handler
  end.

(** [Array.prototype.map] with a callback [(element, index) => ...] that
    reads and writes variables of the enclosing function: the captured
    variables are the state [St] threaded through the visits. *)
Fixpoint map_state {St A B} (f : St -> A -> nat -> St * B)
    (s : St) (index : nat) (l : list A) : St * list B :=
  match l with
  | [] => (s, [])
  | a :: l' =>
      let '(s1, b) := f s a index in
      let '(s2, bs) := map_state f s1 (S index) l' in
      (s2, b :: bs)
  end.

(** ** String primitives of the source *)

(** [list.includes(x)] on an array of string literals *)
Definition includes (l : list string) (x : string) : bool :=
  existsb (String.eqb x) l.

(** [numbers.join('.')].  A release component is a JavaScript number with
    a non-negative integer value, modelled by that value; the model prints
    it in decimal, as the source does for every integer up to 2^53 (from
    10^21 on the source prints an exponent). *)
Definition join_release (l : list N) : string :=
  String.concat "." (map pretty l).

(** [s.includes(', ')] *)
Fixpoint includes_comma_space (s : string) : bool :=
  match s with
  | String ","%char (String " "%char _) => true
  | String _ r => includes_comma_space r
  | EmptyString => false
  end.

(** [s.replace(regEx(/, /g), ',')] *)
Fixpoint replace_comma_space (s : string) : string :=
  match s with
  | String ","%char (String " "%char r) =>
      String ","%char (replace_comma_space r)
  | String c r => String c (replace_comma_space r)
  | EmptyString => EmptyString
  end.

(** [array[i] += step] on a number array.  A negative [i] names a property
    that is not an element ([futureRelease[-1]] on an empty array), so the
    elements stay as they are; the source never uses an index at or beyond
    the length.  The sum is the sum of the integers: it is the source's sum
    of two numbers as long as it is at most 2^53 (see [number_add] and
    [within_exact_range]), beyond which the source rounds. *)
Definition add_at (i : Z) (step : N) (l : list N) : list N :=
  if (i <? 0)%Z then l else alter (fun x => (x + step)%N) (Z.to_nat i) l.

(** ** The interface imported from [@renovatebot/pep440] *)

(** [parseVersion(v)]: only [release] is read by the source. *)
Record Version := { release : list N }.

(** [interface Range]; [prefix] is [undefined] when the clause has no
    [.*] suffix. *)
Record Range := {
  operator : string;
  prefix : option string;
  version : string;
}.

(** Truthiness of [range.prefix] *)
Definition truthy (p : option string) : bool :=
  match p with
  | Some s => negb (String.eqb s "")
  | None => false
  end.

Module Pep440.
Class Lib := {
  (** [parse] of lib/version.js: [null] on an invalid version *)
  parseVersion : string -> option Version;
  (** [parse] of lib/specifier.js: [null] on an invalid specifier *)
  parseRange : string -> option (list Range);
  satisfies : string -> string -> outcome bool;
  lt : string -> string -> outcome bool;
  lte : string -> string -> outcome bool;
  gte : string -> string -> outcome bool;
}.
End Pep440.

(** [parseVersion(v)?.release ?? []] *)
Definition release_of `{Pep440.Lib} (v : string) : list N :=
  match Pep440.parseVersion v with
  | Some p => release p
  | None => []
  end.

(** ** Positional comparison of release tuples

    The tuples are compared position by position; where one tuple has run
    out its components count as 0, so the rest of the other tuple decides
    (components are never negative). *)

Fixpoint tuple_compare (a b : list N) : comparison :=
  match a, b with
  | [], _ => if forallb (N.eqb 0) b then Eq else Lt
  | _, [] => if forallb (N.eqb 0) a then Eq else Gt
  | x :: a', y :: b' =>
      match (x ?= y)%N with Eq => tuple_compare a' b' | c => c end
  end.

Definition tuple_lt (a b : list N) : Prop := tuple_compare a b = Lt.
Definition tuple_le (a b : list N) : Prop := tuple_compare a b <> Gt.

(** ** Tokenizing in [isLessThanRange]

    Strings are sequences of code units below 256. *)

(** [s.split(sep)] for a one-character separator *)
Fixpoint split_char (sep : ascii) (s : string) : list string :=
  match s with
  | EmptyString => [""]
  | String c r =>
      match split_char sep r with
      | piece :: pieces =>
          if Ascii.eqb c sep then "" :: piece :: pieces
          else String c piece :: pieces
      | [] => []
      end
  end.

(** [range.split(',')] *)
Definition split_comma (s : string) : list string := split_char ","%char s.

(** The class [\s] of a JavaScript regular expression, on code units
    below 256: tab, line feed, vertical tab, form feed, carriage return,
    space and no-break space. *)
Definition is_space (c : ascii) : bool :=
  let n := nat_of_ascii c in
  ((9 <=? n) && (n <=? 13) || (n =? 32) || (n =? 160))%nat.

(** [x.replace(regEx(/\s*/g), '')] *)
Fixpoint strip_spaces (s : string) : string :=
  match s with
  | EmptyString => EmptyString
  | String c r =>
      if is_space c then strip_spaces r else String c (strip_spaces r)
  end.

(** The alternatives of [/(~=|==|!=|<=|>=|<|>|===)/], in the order in which
    the regular expression tries them at a position. *)
Definition operator_alternatives : list string :=
  ["~="; "=="; "!="; "<="; ">="; "<"; ">"; "==="].

(** The match of the regular expression at the start of [s]: the first
    alternative that is a prefix of [s]. *)
Definition match_operator (s : string) : option string :=
  List.find (fun op => String.prefix op s) operator_alternatives.

(** [x.split(regEx(/(~=|==|!=|<=|>=|<|>|===)/))]: the text between the
    matches, with each matched operator (the capture group) in between.
    [skip] counts the code units of the current match still to pass. *)
Fixpoint split_operators (skip : nat) (s : string) : list string :=
  match s with
  | EmptyString => [""]
  | String c r =>
      match skip with
      | S skip' => split_operators skip' r
      | O =>
          match match_operator s with
          | Some op => "" :: op :: split_operators (String.length op - 1) r
          | None =>
              match split_operators 0 r with
              | piece :: pieces => String c piece :: pieces
              | [] => []
              end
          end
      end
  end.

(** [.slice(1)] *)
Definition slice1 {A} (l : list A) : list A := tail l.

(** One comma-separated piece of the range, as [[op, version]] *)
Definition tokens (x : string) : list string :=
  slice1 (split_operators 0 (strip_spaces x)).

(** [list.includes(op)] where [op] may be [undefined] *)
Definition includes_opt (l : list string) (op : option string) : bool :=
  match op with
  | Some op => includes l op
  | None => false
  end.

(** [Array.prototype.map] with a callback that may raise and that writes a
    captured variable: left to right, the first exception aborts. *)
Fixpoint map_state_exn {St A B} (f : St -> A -> outcome (St * B))
    (s : St) (l : list A) : outcome (St * list B) :=
  match l with
  | [] => Ret (s, [])
  | a :: l' =>
      '(s1, b) ← f s a;
      '(s2, bs) ← map_state_exn f s1 l';
      Ret (s2, b :: bs)
  end.

(** ** Shared shapes of both snapshots *)

(** [NewValueConfig], the fields [getNewValue] destructures *)
Record NewValueConfig := {
  currentValue : string;
  rangeStrategy : string;
  currentVersion : string;
  newVersion : string;
}.

(** [.filter(Boolean)] on the rewritten clauses: [null] and the empty
    string are dropped. *)
Definition filter_Boolean (l : list (option string)) : list string :=
  omap (fun o =>
          match o with
          | Some s => if String.eqb s "" then None else Some s
          | None => None
          end) l.

(** [ranges.some((range) => range.operator === '===')] *)
Definition some_arbitrary_equality (ranges : list Range) : bool :=
  existsb (fun range => String.eqb (operator range) "===") ranges.

(** The tail of [getNewValue]: join the rewritten clauses, keep the
    caller's separator, validate against the new version. *)
Definition assemble `{Pep440.Lib} (currentValue newVersion : string)
    (rewritten : list (option string)) : outcome (option string) :=
  let result := String.concat ", " (filter_Boolean rewritten) in
  let result :=
    if includes_comma_space result && negb (includes_comma_space currentValue)
    then replace_comma_space result
    else result in
  ok ← Pep440.satisfies newVersion result;
  if negb (ok : bool) then Ret None else Ret (Some result).

(** ** src/lib/versioning/pep440/range.ts *)

Module RangeTs.

(** State of the scan in [getFutureVersion]: [found] and [set]. *)
Definition scan_state : Type := bool * Z.

(** The callback of [baseRelease.map] in [getFutureVersion]. *)
Definition scan (toRelease : list N) (st : scan_state)
    (basePart : N) (index : nat) : scan_state * N :=
  let '(found, set) := st in
  let toPart := default 0%N (toRelease !! index) in
  if found && (set =? -1)%Z then ((found, Z.of_nat index), toPart)
  else if found then (st, 0%N)
  else if (basePart <? toPart)%N then ((true, set), toPart)
  else (st, toPart).

(** [getFutureVersion] on release tuples.  The step is added as an
    integer, which is the source's sum within the exact range
    ([within_exact_range]). *)
Definition futureRelease (baseRelease toRelease : list N) (step : N)
    : list N :=
  let '((found, set), futureRelease) :=
    map_state (scan toRelease) (false, (-1)%Z) 0 baseRelease in
  let len := Z.of_nat (length futureRelease) in
  let futureRelease :=
    if negb (set =? -1)%Z
    then add_at (if (set =? len - 1)%Z then (set - 1)%Z else set)
                step futureRelease
    else futureRelease in
  let futureRelease :=
    if negb found then add_at (len - 1)%Z step futureRelease
    else futureRelease in
  let futureRelease :=
    if found && (set =? -1)%Z then add_at (len - 1)%Z step futureRelease
    else futureRelease in
  futureRelease.

Definition getFutureVersion `{Pep440.Lib}
    (baseVersion newVersion : string) (step : N) : string :=
  let toRelease := release_of newVersion in
  let baseRelease := release_of baseVersion in
  join_release (futureRelease baseRelease toRelease step).

(** The callback of [ranges.map] in [getNewValue]: the rule table. *)
Definition rewrite `{Pep440.Lib} (rangeStrategy newVersion : string)
    (range : Range) : outcome (option string) :=
  if String.eqb (operator range) "!=" then
    Ret (Some (operator range +:+ version range))
  else if includes [">"; ">="] (operator range) then
    rollback ← Pep440.lte newVersion (version range);
    if (rollback : bool) then Ret (Some (">=" +:+ newVersion))
    else if String.eqb rangeStrategy "bump"
            && String.eqb (operator range) ">="
    then Ret (Some (operator range +:+ newVersion))
    else Ret (Some (operator range +:+ version range))
  else if String.eqb (operator range) "<" then
    outside ← Pep440.gte newVersion (version range);
    if (outside : bool) then
      let futureVersion := getFutureVersion (version range) newVersion 1 in
      Ret (Some (operator range +:+ futureVersion))
    else Ret (Some (operator range +:+ version range))
  else if truthy (prefix range) then
    let futureVersion := getFutureVersion (version range) newVersion 0 in
    Ret (Some (operator range +:+ futureVersion +:+ ".*"))
  else if includes ["=="; "~="; "<="] (operator range) then
    Ret (Some (operator range +:+ newVersion))
  else Ret None.

(** The body of [getNewValue]; [self] is the function itself, called
    once more when the strategy is not supported. *)
Definition getNewValueF `{Pep440.Lib}
    (self : NewValueConfig -> outcome (option string))
    (config : NewValueConfig) : outcome (option string) :=
  let '{| currentValue := currentValue; rangeStrategy := rangeStrategy;
          currentVersion := currentVersion; newVersion := newVersion |}
    := config in
  if String.eqb rangeStrategy "pin" then Ret (Some ("==" +:+ newVersion))
  else if String.eqb currentValue currentVersion then Ret (Some newVersion)
  else
    match Pep440.parseRange currentValue with
    | None => Ret None
    | Some ranges =>
        if (length ranges =? 0)%nat then Ret (Some currentValue)
        else
          satisfied ←
            (if String.eqb rangeStrategy "auto"
                || String.eqb rangeStrategy "replace"
             then Pep440.satisfies newVersion currentValue
             else Ret false);
          if (satisfied : bool) then Ret (Some currentValue)
          else if negb (includes ["replace"; "bump"] rangeStrategy) then
            self {| currentValue := currentValue;
                    rangeStrategy := "replace";
                    currentVersion := currentVersion;
                    newVersion := newVersion |}
          else if some_arbitrary_equality ranges then Ret None
          else
            rewritten ← mapM (rewrite rangeStrategy newVersion) ranges;
            assemble currentValue newVersion rewritten
    end.

(** [getNewValue]: the recursive call passes ['replace'], which is
    supported, so it never calls itself again ([getNewValue_unfold]). *)
Definition getNewValue `{Pep440.Lib} (config : NewValueConfig)
    : outcome (option string) :=
  getNewValueF (getNewValueF (fun _ => Throw)) config.

(** The callback [([op, version]) => ...] of [isLessThanRange]; the state
    is the captured variable [invertResult].  [version] is defined
    whenever [op] is ([tokens_version_defined]); the library is not
    called on [undefined]. *)
Definition check `{Pep440.Lib} (input : string) (invertResult : bool)
    (clause : list string) : outcome (bool * bool) :=
  let op := clause !! 0%nat in
  let version := clause !! 1%nat in
  if includes_opt ["!="; "<="; "<"] op then Ret (invertResult, true)
  else
    let invertResult := false in
    if includes_opt ["~="; "=="; ">="; "==="] op then
      match version with
      | Some version =>
          res ← Pep440.lt input version; Ret (invertResult, res)
      | None => Throw
      end
    else if includes_opt [">"] op then
      match version with
      | Some version =>
          res ← Pep440.lte input version; Ret (invertResult, res)
      | None => Throw
      end
    else Ret (invertResult, false).

(** The [try] block of [isLessThanRange]. *)
Definition isLessThanRange_body `{Pep440.Lib} (input range : string)
    : outcome bool :=
  '(invertResult, results) ←
    map_state_exn (check input) true (map tokens (split_comma range));
  let result := forallb (fun res => Bool.eqb res true) results in
  Ret (if (invertResult : bool) then negb result else result).

(** [isLessThanRange]; src/unnamed/part_001 has the same function. *)
Definition isLessThanRange `{Pep440.Lib} (input range : string)
    : outcome bool :=
  try_catch (isLessThanRange_body input range) false.

End RangeTs.

(** ** src/unnamed/part_001 *)

Module Part001.

(** [enum ReplaceUserPolicy { Major = 0, Minor, Micro, Bug }] *)
Inductive ReplaceUserPolicy := Major | Minor | Micro | Bug.

Definition policy_value (policy : ReplaceUserPolicy) : nat :=
  match policy with
  | Major => 0
  | Minor => 1
  | Micro => 2
  | Bug => 3
  end.

(** [ReplaceUserPolicy[ReplaceUserPolicy[index]]]: the reverse mapping of
    the enum, [undefined] outside 0..3.  The caller tests the result with
    [!= null], which [undefined] fails like [null] does. *)
Definition policy_of_index (index : Z) : option ReplaceUserPolicy :=
  if (index =? 0)%Z then Some Major
  else if (index =? 1)%Z then Some Minor
  else if (index =? 2)%Z then Some Micro
  else if (index =? 3)%Z then Some Bug
  else None.

(** [array.findIndex((el, index) => ...)], -1 when nothing is found *)
Fixpoint findIndex_from {A} (p : A -> nat -> bool) (index : nat)
    (l : list A) : Z :=
  match l with
  | [] => (-1)%Z
  | el :: l' =>
      if p el index then Z.of_nat index else findIndex_from p (S index) l'
  end.

Definition findIndex {A} (p : A -> nat -> bool) (l : list A) : Z :=
  findIndex_from p 0 l.

(** [el > lowerBound[index]]: false when [lowerBound[index]] is
    [undefined]. *)
Definition exceeds (lowerBound : list N) (el : N) (index : nat) : bool :=
  match lowerBound !! index with
  | Some low => (low <? el)%N
  | None => false
  end.

Definition getUserReplacePrecision `{Pep440.Lib} (ranges : list Range)
    : option ReplaceUserPolicy :=
  match ranges with
  | [lower; upper] =>
      let lowerBound := release_of (version lower) in
      let upperBound := release_of (version upper) in
      let index := findIndex (exceeds lowerBound) upperBound in
      policy_of_index index
  | _ => None
  end.

(** [num + 1] is the sum of the integers, the source's sum as long as it
    is at most 2^53. *)
Definition getFutureReplaceVersion `{Pep440.Lib} (newVersion : string)
    (policy : ReplaceUserPolicy) : string :=
  let toRelease := release_of newVersion in
  let futureVersion :=
    imap (fun index num =>
            if (index <? policy_value policy)%nat then num
            else if (index =? policy_value policy)%nat then (num + 1)%N
            else 0%N) toRelease in
  join_release futureVersion.

(** The callback of [baseRelease.map] in [getFutureVersion]; the state
    is the captured variable [found].  [toPart + step] is the sum of the
    integers, the source's sum within the exact range. *)
Definition scan (toRelease : list N) (step : N) (found : bool)
    (basePart : N) (index : nat) : bool * N :=
  if found then (found, 0%N)
  else
    let toPart := default 0%N (toRelease !! index) in
    if (basePart <? toPart)%N then (true, (toPart + step)%N)
    else (found, toPart).

(** [getFutureVersion] on release tuples.  The step is added as an
    integer, which is the source's sum within the exact range
    ([within_exact_range]). *)
Definition futureRelease (baseRelease toRelease : list N) (step : N)
    : list N :=
  let '(found, futureRelease) :=
    map_state (scan toRelease step) false 0 baseRelease in
  if negb found
  then add_at (Z.of_nat (length futureRelease) - 1)%Z step futureRelease
  else futureRelease.

Definition getFutureVersion `{Pep440.Lib}
    (baseVersion newVersion : string) (step : N) : string :=
  let toRelease := release_of newVersion in
  let baseRelease := release_of baseVersion in
  join_release (futureRelease baseRelease toRelease step).

(** The callback of [ranges.map] in [getNewValue]: the rule table. *)
Definition rewrite `{Pep440.Lib} (ranges : list Range)
    (rangeStrategy newVersion : string) (range : Range)
    : outcome (option string) :=
  if String.eqb (operator range) "!=" then
    Ret (Some (operator range +:+ version range))
  else if includes [">"; ">="] (operator range) then
    rollback ← Pep440.lte newVersion (version range);
    if (rollback : bool) then Ret (Some (">=" +:+ newVersion))
    else if includes ["replace"; "bump"] rangeStrategy
            && String.eqb (operator range) ">="
    then Ret (Some (operator range +:+ newVersion))
    else Ret (Some (operator range +:+ version range))
  else if String.eqb (operator range) "<" then
    outside ← Pep440.gte newVersion (version range);
    if (outside : bool) then
      let userReplacePolicy := getUserReplacePrecision ranges in
      match userReplacePolicy with
      | Some policy =>
          if String.eqb rangeStrategy "replace" then
            Ret (Some (operator range
                       +:+ getFutureReplaceVersion newVersion policy))
          else
            let futureVersion :=
              getFutureVersion (version range) newVersion 1 in
            Ret (Some (operator range +:+ futureVersion))
      | None =>
          let futureVersion :=
            getFutureVersion (version range) newVersion 1 in
          Ret (Some (operator range +:+ futureVersion))
      end
    else Ret (Some (operator range +:+ version range))
  else if truthy (prefix range) then
    let futureVersion := getFutureVersion (version range) newVersion 0 in
    Ret (Some (operator range +:+ futureVersion +:+ ".*"))
  else if includes ["=="; "~="; "<="] (operator range) then
    Ret (Some (operator range +:+ newVersion))
  else Ret None.

(** The body of [getNewValue]; [self] is the function itself, called
    once more when the strategy is not supported. *)
Definition getNewValueF `{Pep440.Lib}
    (self : NewValueConfig -> outcome (option string))
    (config : NewValueConfig) : outcome (option string) :=
  let '{| currentValue := currentValue; rangeStrategy := rangeStrategy;
          currentVersion := currentVersion; newVersion := newVersion |}
    := config in
  if String.eqb rangeStrategy "pin" then Ret (Some ("==" +:+ newVersion))
  else if String.eqb currentValue currentVersion then Ret (Some newVersion)
  else
    match Pep440.parseRange currentValue with
    | None => Ret None
    | Some ranges =>
        if (length ranges =? 0)%nat then Ret (Some currentValue)
        else
          satisfied ←
            (if String.eqb rangeStrategy "auto"
                || String.eqb rangeStrategy "replace"
             then Pep440.satisfies newVersion currentValue
             else Ret false);
          if (satisfied : bool) then Ret (Some currentValue)
          else if negb (includes ["replace"; "bump"; "widen"] rangeStrategy)
          then
            self {| currentValue := currentValue;
                    rangeStrategy := "replace";
                    currentVersion := currentVersion;
                    newVersion := newVersion |}
          else if some_arbitrary_equality ranges then Ret None
          else
            rewritten ←
              mapM (rewrite ranges rangeStrategy newVersion) ranges;
            assemble currentValue newVersion rewritten
    end.

Definition getNewValue `{Pep440.Lib} (config : NewValueConfig)
    : outcome (option string) :=
  getNewValueF (getNewValueF (fun _ => Throw)) config.

End Part001.


(** ** An implementation of the interface for final releases

    [@renovatebot/pep440] restricted to versions of the form [N(.N)*] (no
    epoch, pre-, post-, dev- or local segment) and to clauses over such
    versions: on these strings the functions below follow the library and
    PEP 440; every other string is rejected the way the library rejects an
    invalid version or specifier. *)

Module Release.

Definition is_digit (c : ascii) : bool :=
  let n := nat_of_ascii c in ((48 <=? n) && (n <=? 57))%nat.

Fixpoint digits_value (acc : N) (s : string) : option N :=
  match s with
  | EmptyString => Some acc
  | String c r =>
      if is_digit c
      then digits_value (acc * 10 + N.of_nat (nat_of_ascii c - 48))%N r
      else None
  end.

(** [[0-9]+] read as a number *)
Definition number (s : string) : option N :=
  match s with
  | EmptyString => None
  | _ => digits_value 0%N s
  end.

(** The release segment [[0-9]+(\.[0-9]+)*] *)
Definition explain (v : string) : option (list N) :=
  mapM number (split_char "."%char v).

Definition parseVersion (v : string) : option Version :=
  r ← explain v; Some {| release := r |}.

(** The comparison functions raise on a version they cannot parse. *)
Definition compare_with (test : comparison -> bool) (v other : string)
    : outcome bool :=
  match explain v, explain other with
  | Some a, Some b => Ret (test (tuple_compare a b))
  | _, _ => Throw
  end.

Definition is_lt (c : comparison) : bool :=
  match c with Lt => true | _ => false end.
Definition is_le (c : comparison) : bool :=
  match c with Gt => false | _ => true end.
Definition is_ge (c : comparison) : bool :=
  match c with Lt => false | _ => true end.
Definition is_gt (c : comparison) : bool :=
  match c with Gt => true | _ => false end.
Definition is_eq (c : comparison) : bool :=
  match c with Eq => true | _ => false end.

Definition lt := compare_with is_lt.
Definition lte := compare_with is_le.
Definition gte := compare_with is_ge.

Fixpoint drop_spaces (s : string) : string :=
  match s with
  | String c r => if is_space c then drop_spaces r else s
  | EmptyString => EmptyString
  end.

Definition reverse_string (s : string) : string :=
  string_of_list_ascii (rev (list_ascii_of_string s)).

(** [s.trim()] *)
Definition trim (s : string) : string :=
  reverse_string (drop_spaces (reverse_string (drop_spaces s))).

(** The operators of a specifier clause, in the order in which the
    library's pattern tries them. *)
Definition clause_operators : list string :=
  ["==="; "~="; "=="; "!="; "<="; ">="; "<"; ">"].

Definition drop_string (n : nat) (s : string) : string :=
  string_of_list_ascii (drop n (list_ascii_of_string s)).

(** A trailing [.*] taken off, when there is one *)
Definition strip_wildcard (s : string) : option string :=
  match list_ascii_of_string (reverse_string s) with
  | "*"%char :: "."%char :: r => Some (string_of_list_ascii (rev r))
  | _ => None
  end.

Definition is_equality (op : string) : bool :=
  includes ["=="; "!="; "==="] op.

(** One clause [<operator> <version>[.*]] *)
Definition parse_clause (piece : string) : option Range :=
  op ← List.find (fun op => String.prefix op piece) clause_operators;
  let text := drop_spaces (drop_string (String.length op) piece) in
  match strip_wildcard text with
  | Some v =>
      r ← explain v;
      if is_equality op
      then Some {| operator := op; prefix := Some ".*"; version := v |}
      else None
  | None =>
      r ← explain text;
      if String.eqb op "~=" && (length r <? 2)%nat then None
      else Some {| operator := op; prefix := None; version := text |}
  end.

Definition parseRange (ranges : string) : option (list Range) :=
  if String.eqb (trim ranges) "" then Some []
  else mapM (fun piece => parse_clause (trim piece)) (split_comma ranges).

(** [==V.*]: the version has a component at every position of [V], and
    these are the components of [V]; a shorter version is not padded. *)
Definition matches_prefix (spec v : list N) : bool :=
  forallb (fun i => match v !! i with
                    | Some c => (c =? default 0 (spec !! i))%N
                    | None => false
                    end)
          (seq 0 (length spec)).

(** Whether a valid version is in the set of one clause *)
Definition contains_release (spec : Range) (v : list N) : option bool :=
  s ← explain (version spec);
  let c := tuple_compare v s in
  if String.eqb (operator spec) "~=" then
    Some (is_ge c && matches_prefix (take (length s - 1) s) v)
  else if truthy (prefix spec) then
    Some (if String.eqb (operator spec) "!=" then negb (matches_prefix s v)
          else matches_prefix s v)
  else if String.eqb (operator spec) "==" then Some (is_eq c)
  else if String.eqb (operator spec) "!=" then Some (negb (is_eq c))
  else if String.eqb (operator spec) "<=" then Some (is_le c)
  else if String.eqb (operator spec) ">=" then Some (is_ge c)
  else if String.eqb (operator spec) "<" then Some (is_lt c)
  else if String.eqb (operator spec) ">" then Some (is_gt c)
  else None.

Definition contains (spec : Range) (v : string) : outcome bool :=
  if String.eqb (operator spec) "===" && negb (truthy (prefix spec))
  then Ret (String.eqb v (version spec))
  else
    match explain v with
    | Some r =>
        match contains_release spec r with
        | Some b => Ret b
        | None => Throw
        end
    | None => Throw
    end.

(** The clauses are tested in order until one fails. *)
Fixpoint contains_all (specs : list Range) (v : string) : outcome bool :=
  match specs with
  | [] => Ret true
  | spec :: specs' =>
      pass ← contains spec v;
      if (pass : bool) then contains_all specs' v else Ret false
  end.

Definition satisfies (v specifier : string) : outcome bool :=
  match parseRange specifier with
  | None => Ret false
  | Some [] => Ret (bool_decide (is_Some (explain v)))
  | Some specs => contains_all specs v
  end.

Definition lib : Pep440.Lib := {|
  Pep440.parseVersion := parseVersion;
  Pep440.parseRange := parseRange;
  Pep440.satisfies := satisfies;
  Pep440.lt := lt;
  Pep440.lte := lte;
  Pep440.gte := gte;
|}.

End Release.


(** * The future-version scan *)

(** [tuple[i] || 0]: the component at a position, 0 where the tuple has
    run out *)
Definition component (l : list N) (i : nat) : N := default 0%N (l !! i).

(** The target's components at positions [k .. k+m-1] *)
Definition padded (to : list N) (k m : nat) : list N :=
  map (component to) (seq k m).

(** [i] is the advance point: the first position of the base at which the
    target's component exceeds the base's. *)
Definition advance_point (base to : list N) (i : nat) : Prop :=
  i < length base /\ (component base i < component to i)%N /\
  forall j, j < i -> (component to j <= component base j)%N.

(** No position of the base is exceeded by the target. *)
Definition no_advance (base to : list N) : Prop :=
  forall j, j < length base -> (component to j <= component base j)%N.

(** The search the scans perform, over the base from position [k] on *)
Fixpoint first_advance (to : list N) (k : nat) (l : list N) : option nat :=
  match l with
  | [] => None
  | basePart :: l' =>
      if (basePart <? component to k)%N then Some k
      else first_advance to (S k) l'
  end.

(** A clause of [isLessThanRange] that places no lower bound: its operator
    is [!=], [<=] or [<]. *)
Definition permissive (clause : list string) : bool :=
  includes_opt ["!="; "<="; "<"] (clause !! 0%nat).

(** What one clause contributes to [isLessThanRange], by its operator. *)
Definition clause_verdict `{Pep440.Lib} (input : string)
    (clause : list string) : outcome bool :=
  let op := clause !! 0%nat in
  if includes_opt ["!="; "<="; "<"] op then Ret true
  else if includes_opt ["~="; "=="; ">="; "==="] op then
    match clause !! 1%nat with
    | Some version => Pep440.lt input version
    | None => Throw
    end
  else if includes_opt [">"] op then
    match clause !! 1%nat with
    | Some version => Pep440.lte input version
    | None => Throw
    end
  else Ret false.

(** The clauses some rule of the table applies to: a known operator, or a
    [.*] suffix. *)
Definition classifiable (range : Range) : bool :=
  includes ["!="; ">"; ">="; "<"; "=="; "~="; "<="] (operator range)
  || truthy (prefix range).

(** [out] copies the target before position [p] and holds the target's
    component plus [step] at [p]. *)
Definition bump_at (to : list N) (step : N) (out : list N) (p : nat) : Prop :=
  (forall j, j < p -> component out j = component to j) /\
  component out p = (component to p + step)%N.

(** ** The range of exact number arithmetic *)

(** The JavaScript number nearest to a non-negative integer, for integers
    in the finite range of numbers: the integer itself up to 2^53, beyond
    that the integer rounded to 53 significant bits, a tie going to the
    even neighbour. *)
Definition to_number (n : N) : N :=
  if (n <=? 2 ^ 53)%N then n
  else
    let shift := (N.log2 n - 52)%N in
    let kept := N.shiftr n shift in
    let rest := N.land n (N.ones shift) in
    let half := (2 ^ (shift - 1))%N in
    let kept' :=
      if (half <? rest)%N || ((rest =? half)%N && N.odd kept)
      then (kept + 1)%N else kept in
    N.shiftl kept' shift.

(** [a + b] on two numbers with non-negative integer values: the exact sum,
    rounded to a number. *)
Definition number_add (a b : N) : N := to_number (a + b).

(** Every sum the scans can form from a component of the target, or from
    the 0 that stands in for a missing one, and the step is at most 2^53,
    so that the source computes it exactly. *)
Definition within_exact_range (to : list N) (step : N) : Prop :=
  (step <= 2 ^ 53)%N /\ Forall (fun c => (c + step <= 2 ^ 53)%N) to.

(** Where the two scans agree: the advance point is absent or last; or it
    is last but one and the target is 0 after it; or it is earlier, the
    step is 0 and the target is 0 right after it. *)
Definition scans_agree (base to : list N) (step : N) : Prop :=
  match first_advance to 0 base with
  | None => True
  | Some i =>
      i + 1 = length base \/
      (i + 2 = length base /\ component to (i + 1) = 0%N) \/
      (i + 2 < length base /\ step = 0%N /\ component to (i + 1) = 0%N)
  end.

(** ** Further vocabulary *)

(** The clauses on which the two [getFutureVersion] are consulted get the
    same answer from both: an upper bound [<] (step 1) and a wildcard
    clause (step 0). *)
Definition future_versions_agree `{Pep440.Lib} (newVersion : string)
    (range : Range) : Prop :=
  (operator range = "<" ->
   scans_agree (release_of (version range)) (release_of newVersion) 1) /\
  (truthy (prefix range) = true ->
   scans_agree (release_of (version range)) (release_of newVersion) 0).

(** [getFutureReplaceVersion] on release tuples: [toRelease.map] with the
    callback of the source, sums as in [Part001.getFutureReplaceVersion]. *)
Definition futureReplaceRelease (toRelease : list N)
    (policy : Part001.ReplaceUserPolicy) : list N :=
  imap (fun index num =>
          if (index <? Part001.policy_value policy)%nat then num
          else if (index =? Part001.policy_value policy)%nat then (num + 1)%N
          else 0%N) toRelease.

(** A code unit that is neither white space, nor a comma, nor part of an
    operator *)
Definition plain_char (c : ascii) : bool :=
  negb (is_space c)
  && negb (existsb (Ascii.eqb c) [","; "~"; "="; "!"; "<"; ">"]%char).

Fixpoint plain (s : string) : bool :=
  match s with
  | EmptyString => true
  | String c r => plain_char c && plain r
  end.

(** The operators a clause can be tokenized with *)
Definition clause_operator (op : string) : Prop :=
  op ∈ ["~="; "=="; "!="; "<="; ">="; "<"; ">"].

(** ** src/unnamed/part_000: the two slash helpers *)

Module Url.

(** The rest of the string is made of slashes only. *)
Fixpoint only_slashes (s : string) : bool :=
  match s with
  | EmptyString => true
  | String c r => Ascii.eqb c "/"%char && only_slashes r
  end.

(** [url.replace(/\/?$/, '/')]: the expression matches at the first
    position from the left where an optional slash is followed by the end
    of the string, that is at a final slash, or else at the end itself. *)
Fixpoint ensureTrailingSlash (url : string) : string :=
  match url with
  | EmptyString => "/"
  | String c r =>
      if Ascii.eqb c "/"%char && String.eqb r "" then "/"
      else String c (ensureTrailingSlash r)
  end.

(** [url.replace(/\/+$/, '')]: the expression matches at the first
    position from which only slashes, at least one, remain. *)
Fixpoint trimTrailingSlash (url : string) : string :=
  match url with
  | EmptyString => ""
  | String c r =>
      if Ascii.eqb c "/"%char && only_slashes r then ""
      else String c (trimTrailingSlash r)
  end.

(** The string ends with a slash. *)
Fixpoint ends_with_slash (s : string) : bool :=
  match s with
  | EmptyString => false
  | String c r =>
      if String.eqb r "" then Ascii.eqb c "/"%char else ends_with_slash r
  end.

End Url.

Section FutureVersion.

Variable to : list N.
Variable step : N.

Lemma first_advance_range k l i :
  first_advance to k l = Some i -> k <= i < k + length l.
Proof.
  revert k. induction l as [|b l IH]; intros k; simpl; [discriminate|].
  destruct (b <? component to k)%N.
  - intros [= <-]. lia.
  - intros Hi. apply IH in Hi. lia.
Qed.

Lemma first_advance_Some k l i :
  first_advance to k l = Some i ->
  (component l (i - k) < component to i)%N /\
  forall j, k <= j < i -> (component to j <= component l (j - k))%N.
Proof.
  revert k. induction l as [|b l IH]; intros k; simpl; [discriminate|].
  destruct (b <? component to k)%N eqn:Hb.
  - intros [= <-]. replace (k - k) with 0 by lia.
    split; [apply N.ltb_lt in Hb; exact Hb | lia].
  - intros Hi. pose proof (first_advance_range _ _ _ Hi) as Hr.
    destruct (IH _ Hi) as [H1 H2]. apply N.ltb_ge in Hb.
    replace (i - k) with (S (i - S k)) by lia. split; [exact H1|].
    intros j Hj. destruct (decide (j = k)) as [->|Hne].
    + replace (k - k) with 0 by lia. exact Hb.
    + replace (j - k) with (S (j - S k)) by lia. apply H2. lia.
Qed.

Lemma first_advance_None k l :
  first_advance to k l = None ->
  forall j, k <= j < k + length l ->
            (component to j <= component l (j - k))%N.
Proof.
  revert k. induction l as [|b l IH]; intros k; simpl; [lia|].
  destruct (b <? component to k)%N eqn:Hb; [discriminate|].
  intros Hn j Hj. apply N.ltb_ge in Hb.
  destruct (decide (j = k)) as [->|Hne].
  - replace (k - k) with 0 by lia. exact Hb.
  - replace (j - k) with (S (j - S k)) by lia. apply IH; [exact Hn|lia].
Qed.

Lemma advance_point_first base i :
  advance_point base to i <-> first_advance to 0 base = Some i.
Proof.
  split.
  - intros (Hlt & Hi & Hbefore).
    destruct (first_advance to 0 base) as [i'|] eqn:Hf.
    + destruct (first_advance_Some _ _ _ Hf) as [H1 H2].
      rewrite Nat.sub_0_r in H1.
      destruct (Nat.lt_trichotomy i i') as [Hc|[->|Hc]]; [|done|].
      * specialize (H2 i ltac:(lia)). rewrite Nat.sub_0_r in H2. lia.
      * specialize (Hbefore i' Hc). lia.
    + pose proof (first_advance_None _ _ Hf i ltac:(lia)) as H.
      rewrite Nat.sub_0_r in H. lia.
  - intros Hf. pose proof (first_advance_range _ _ _ Hf).
    destruct (first_advance_Some _ _ _ Hf) as [H1 H2].
    rewrite Nat.sub_0_r in H1. split; [lia|]. split; [exact H1|].
    intros j Hj. specialize (H2 j ltac:(lia)).
    rewrite Nat.sub_0_r in H2. exact H2.
Qed.

Lemma no_advance_first base :
  no_advance base to <-> first_advance to 0 base = None.
Proof.
  split.
  - intros Hno. destruct (first_advance to 0 base) as [i|] eqn:Hf; [|done].
    apply advance_point_first in Hf. destruct Hf as (Hlt & Hi & _).
    specialize (Hno i Hlt). lia.
  - intros Hf j Hj. pose proof (first_advance_None _ _ Hf j ltac:(lia)) as H.
    rewrite Nat.sub_0_r in H. exact H.
Qed.

Lemma padded_S k m : padded to k (S m) = component to k :: padded to (S k) m.
Proof. reflexivity. Qed.

Lemma padded_snoc k m :
  padded to k (S m) = padded to k m ++ [component to (k + m)].
Proof. unfold padded. rewrite seq_S, map_app. reflexivity. Qed.

Lemma length_padded k m : length (padded to k m) = m.
Proof. unfold padded. rewrite length_map, length_seq. reflexivity. Qed.

Lemma lookup_padded k m j :
  j < m -> padded to k m !! j = Some (component to (k + j)).
Proof.
  intros Hj. unfold padded. rewrite list_lookup_fmap.
  rewrite lookup_seq_lt by exact Hj. reflexivity.
Qed.

(** *** src/unnamed/part_001: the scan in closed form *)

Lemma Part001_scan_found k l :
  map_state (Part001.scan to step) true k l
  = (true, replicate (length l) 0%N).
Proof.
  revert k. induction l as [|b l IH]; intros k; simpl; [reflexivity|].
  rewrite IH. reflexivity.
Qed.

Lemma Part001_scan_closed k l :
  map_state (Part001.scan to step) false k l
  = match first_advance to k l with
    | Some i =>
        (true, padded to k (i - k)
               ++ (component to i + step)%N
               :: replicate (k + length l - i - 1) 0%N)
    | None => (false, padded to k (length l))
    end.
Proof.
  revert k. induction l as [|b l IH]; intros k; simpl; [reflexivity|].
  fold (component to k).
  destruct (b <? component to k)%N eqn:Hb.
  - rewrite Part001_scan_found.
    replace (k - k) with 0 by lia.
    replace (k + S (length l) - k - 1) with (length l) by lia.
    reflexivity.
  - rewrite IH. destruct (first_advance to (S k) l) as [i|] eqn:Hf.
    + pose proof (first_advance_range _ _ _ Hf) as Hr.
      replace (i - k) with (S (i - S k)) by lia. rewrite padded_S.
      replace (k + S (length l) - i - 1) with (S k + length l - i - 1)
        by lia.
      reflexivity.
    + reflexivity.
Qed.

(** *** src/lib/versioning/pep440/range.ts: the scan in closed form *)

Lemma RangeTs_scan_set (s : Z) k l :
  s <> (-1)%Z ->
  map_state (RangeTs.scan to) (true, s) k l
  = ((true, s), replicate (length l) 0%N).
Proof.
  intros Hs. revert k. induction l as [|b l IH]; intros k; simpl.
  - reflexivity.
  - destruct (Z.eqb_spec s (-1)) as [|_]; [done|]. simpl.
    rewrite IH. reflexivity.
Qed.

Lemma RangeTs_scan_found k l :
  map_state (RangeTs.scan to) (true, (-1)%Z) k l
  = match l with
    | [] => ((true, (-1)%Z), [])
    | _ :: l' =>
        ((true, Z.of_nat k), component to k :: replicate (length l') 0%N)
    end.
Proof.
  destruct l as [|b l]; simpl; [reflexivity|].
  rewrite RangeTs_scan_set by lia. reflexivity.
Qed.

Lemma RangeTs_scan_closed k l :
  map_state (RangeTs.scan to) (false, (-1)%Z) k l
  = match first_advance to k l with
    | None => ((false, (-1)%Z), padded to k (length l))
    | Some i =>
        if decide (i + 1 < k + length l)
        then ((true, Z.of_nat (i + 1)),
              padded to k (i + 2 - k)
              ++ replicate (k + length l - i - 2) 0%N)
        else ((true, (-1)%Z), padded to k (length l))
    end.
Proof.
  revert k. induction l as [|b l IH]; intros k; [reflexivity|].
  cbn [map_state first_advance RangeTs.scan andb].
  fold (component to k).
  destruct (b <? component to k)%N eqn:Hb.
  - rewrite RangeTs_scan_found. destruct l as [|b' l].
    + rewrite decide_False by (simpl; lia). reflexivity.
    + rewrite decide_True by (simpl; lia).
      replace (k + 2 - k) with 2 by lia.
      replace (k + length (b :: b' :: l) - k - 2) with (length l)
        by (simpl; lia).
      replace (k + 1) with (S k) by lia. reflexivity.
  - rewrite IH. destruct (first_advance to (S k) l) as [i|] eqn:Hf.
    + pose proof (first_advance_range _ _ _ Hf) as Hr.
      destruct (decide (i + 1 < S k + length l)) as [Hd|Hd].
      * rewrite decide_True by (simpl; lia).
        replace (i + 2 - k) with (S (i + 2 - S k)) by lia.
        rewrite padded_S.
        replace (k + length (b :: l) - i - 2)
          with (S k + length l - i - 2) by (simpl; lia).
        reflexivity.
      * rewrite decide_False by (simpl; lia). reflexivity.
    + reflexivity.
Qed.

(** *** [array[i] += step] *)

Lemma length_add_at i l : length (add_at i step l) = length l.
Proof.
  unfold add_at. destruct (i <? 0)%Z; [reflexivity|apply length_alter].
Qed.

Lemma component_add_at_eq i l :
  i < length l ->
  component (add_at (Z.of_nat i) step l) i = (component l i + step)%N.
Proof.
  intros Hi. unfold add_at, component.
  destruct (Z.ltb_spec (Z.of_nat i) 0) as [|_]; [lia|].
  rewrite Nat2Z.id, list_lookup_alter_eq.
  destruct (lookup_lt_is_Some_2 l i Hi) as [x ->]. reflexivity.
Qed.

Lemma component_add_at_ne i j l :
  i <> j -> component (add_at (Z.of_nat i) step l) j = component l j.
Proof.
  intros Hne. unfold add_at, component.
  destruct (Z.ltb_spec (Z.of_nat i) 0) as [|_]; [lia|].
  rewrite Nat2Z.id, list_lookup_alter_ne by exact Hne. reflexivity.
Qed.

Lemma component_padded_app m rest j :
  j < m -> component (padded to 0 m ++ rest) j = component to j.
Proof.
  intros Hj. unfold component at 1.
  rewrite lookup_app_l by (rewrite length_padded; exact Hj).
  rewrite lookup_padded by exact Hj. reflexivity.
Qed.

Lemma component_padded m j :
  j < m -> component (padded to 0 m) j = component to j.
Proof.
  intros Hj. rewrite <- (app_nil_r (padded to 0 m)).
  apply component_padded_app. exact Hj.
Qed.

Lemma component_zeros l m j :
  length l <= j -> component (l ++ replicate m 0%N) j = 0%N.
Proof.
  intros Hj. unfold component. rewrite lookup_app_r by exact Hj.
  destruct (replicate m 0%N !! (j - length l)) as [x|] eqn:Hx;
    [|reflexivity].
  apply lookup_replicate in Hx. destruct Hx as [-> _]. reflexivity.
Qed.

Lemma component_beyond (l : list N) j : length l <= j -> component l j = 0%N.
Proof.
  intros Hj. unfold component. rewrite lookup_ge_None_2 by exact Hj.
  reflexivity.
Qed.

(** *** [getFutureVersion] in closed form *)

Lemma Part001_futureRelease_closed base :
  Part001.futureRelease base to step
  = match first_advance to 0 base with
    | Some i =>
        padded to 0 i
        ++ (component to i + step)%N :: replicate (length base - i - 1) 0%N
    | None =>
        add_at (Z.of_nat (length base) - 1) step
               (padded to 0 (length base))
    end.
Proof.
  unfold Part001.futureRelease. rewrite Part001_scan_closed.
  destruct (first_advance to 0 base) as [i|]; simpl.
  - rewrite Nat.sub_0_r. reflexivity.
  - rewrite length_padded. reflexivity.
Qed.

Lemma RangeTs_futureRelease_closed base :
  RangeTs.futureRelease base to step
  = match first_advance to 0 base with
    | None =>
        add_at (Z.of_nat (length base) - 1) step
               (padded to 0 (length base))
    | Some i =>
        if decide (i + 1 = length base)
        then add_at (Z.of_nat (length base) - 1) step
                    (padded to 0 (length base))
        else if decide (i + 2 = length base)
        then add_at (Z.of_nat i) step (padded to 0 (length base))
        else add_at (Z.of_nat (i + 1)) step
                    (padded to 0 (i + 2)
                     ++ replicate (length base - i - 2) 0%N)
    end.
Proof.
  unfold RangeTs.futureRelease. rewrite RangeTs_scan_closed.
  destruct (first_advance to 0 base) as [i|] eqn:Hf.
  - pose proof (first_advance_range _ _ _ Hf) as Hr.
    destruct (decide (i + 1 < 0 + length base)) as [Hd|Hd].
    + rewrite decide_False by lia.
      rewrite length_app, length_padded, length_replicate.
      replace (i + 2 - 0) with (i + 2) by lia.
      replace (0 + length base - i - 2) with (length base - i - 2) by lia.
      destruct (Z.eqb_spec (Z.of_nat (i + 1)) (-1)) as [|_]; [lia|].
      cbn [negb andb].
      destruct (decide (i + 2 = length base)) as [He|He].
      * destruct (Z.eqb_spec (Z.of_nat (i + 1))
                    (Z.of_nat (i + 2 + (length base - i - 2)) - 1))
          as [_|]; [|lia].
        replace (length base - i - 2) with 0 by lia.
        replace (Z.of_nat (i + 1) - 1)%Z with (Z.of_nat i) by lia.
        rewrite <- He. simpl. rewrite app_nil_r. reflexivity.
      * destruct (Z.eqb_spec (Z.of_nat (i + 1))
                    (Z.of_nat (i + 2 + (length base - i - 2)) - 1))
          as [|_]; [lia|].
        reflexivity.
    + rewrite decide_True by lia. rewrite length_padded. reflexivity.
  - simpl. rewrite length_padded. reflexivity.
Qed.

(** *** Where the step lands *)

Lemma component_app_middle (l : list N) x rest :
  component (l ++ x :: rest) (length l) = x.
Proof. unfold component. rewrite list_lookup_middle; reflexivity. Qed.

Lemma bump_at_last n :
  0 < n ->
bump_at to step (add_at (Z.of_nat n - 1) step (padded to 0 n)) (n - 1).
Proof.
  intros Hn. replace (Z.of_nat n - 1)%Z with (Z.of_nat (n - 1)) by lia.
  split.
  - intros j Hj. rewrite component_add_at_ne by lia.
    apply component_padded. lia.
  - rewrite component_add_at_eq by (rewrite length_padded; lia).
    rewrite component_padded by lia. reflexivity.
Qed.

Lemma Part001_bump_at base :
  base <> [] ->
  bump_at to step (Part001.futureRelease base to step)
          (match first_advance to 0 base with
           | Some i => i
           | None => length base - 1
           end).
Proof.
  intros Hne. rewrite Part001_futureRelease_closed.
  destruct (first_advance to 0 base) as [i|] eqn:Hf.
  - split.
    + intros j Hj. apply component_padded_app. exact Hj.
    + pose proof (component_app_middle (padded to 0 i)
                    (component to i + step)%N
                    (replicate (length base - i - 1) 0%N)) as H.
      rewrite length_padded in H. exact H.
  - apply bump_at_last. destruct base; [done|simpl; lia].
Qed.

Lemma RangeTs_bump_at base :
  base <> [] ->
  bump_at to step (RangeTs.futureRelease base to step)
          (match first_advance to 0 base with
           | Some i =>
               if decide (i + 1 = length base) then i
               else if decide (i + 2 = length base) then i
               else i + 1
           | None => length base - 1
           end).
Proof.
  intros Hne. rewrite RangeTs_futureRelease_closed.
  assert (0 < length base) as Hn by (destruct base; [done|simpl; lia]).
  destruct (first_advance to 0 base) as [i|] eqn:Hf.
  - pose proof (first_advance_range _ _ _ Hf) as Hr.
    destruct (decide (i + 1 = length base)) as [He|He].
    + replace i with (length base - 1) by lia.
      apply bump_at_last. exact Hn.
    + destruct (decide (i + 2 = length base)) as [He2|He2].
      * split.
        -- intros j Hj. rewrite component_add_at_ne by lia.
           apply component_padded. lia.
        -- rewrite component_add_at_eq by (rewrite length_padded; lia).
           rewrite component_padded by lia. reflexivity.
      * split.
        -- intros j Hj. rewrite component_add_at_ne by lia.
           apply component_padded_app. lia.
        -- rewrite component_add_at_eq
             by (rewrite length_app, length_padded; lia).
           rewrite component_padded_app by lia. reflexivity.
  - apply bump_at_last. exact Hn.
Qed.

(** *** Positional comparison *)

Lemma component_tail (l : list N) j :
  component (tail l) j = component l (S j).
Proof. destruct l; reflexivity. Qed.

Lemma forallb_zero_tail (l : list N) :
  forallb (N.eqb 0) l
  = match (component l 0 ?= 0)%N with
    | Eq => forallb (N.eqb 0) (tail l)
    | _ => false
    end.
Proof.
  destruct l as [|x l]; [reflexivity|]. unfold component. simpl.
  destruct x; reflexivity.
Qed.

Lemma tuple_compare_unfold a b :
  tuple_compare a b
  = match (component a 0 ?= component b 0)%N with
    | Eq => tuple_compare (tail a) (tail b)
    | c => c
    end.
Proof.
  destruct a as [|x a], b as [|y b]; unfold component; simpl.
  - reflexivity.
  - destruct y; simpl; [|reflexivity]. destruct b; reflexivity.
  - destruct x; simpl; [|reflexivity]. destruct a; reflexivity.
  - reflexivity.
Qed.

Lemma tuple_lt_intro p : forall a b,
  (forall j, j < p -> component a j = component b j) ->
  (component a p < component b p)%N ->
  tuple_lt a b.
Proof.
  unfold tuple_lt. induction p as [|p IH]; intros a b Heq Hlt.
  - rewrite tuple_compare_unfold. unfold N.lt in Hlt.
    rewrite Hlt. reflexivity.
  - rewrite tuple_compare_unfold.
    rewrite (Heq 0 ltac:(lia)), N.compare_refl.
    apply IH.
    + intros j Hj. rewrite !component_tail. apply Heq. lia.
    + rewrite !component_tail. exact Hlt.
Qed.

Lemma tuple_le_prefix i : forall a b,
  tuple_le a b ->
  (forall j, j < i -> (component b j <= component a j)%N) ->
  forall j, j < i -> component a j = component b j.
Proof.
  unfold tuple_le. induction i as [|i IH]; intros a b Hle Hge j Hj; [lia|].
  rewrite tuple_compare_unfold in Hle.
  pose proof (Hge 0 ltac:(lia)) as H0.
  destruct (component a 0 ?= component b 0)%N eqn:Hc.
  - apply N.compare_eq_iff in Hc.
    destruct j as [|j]; [exact Hc|].
    rewrite <- !component_tail. apply IH; [exact Hle| |lia].
    intros j' Hj'. rewrite !component_tail. apply Hge. lia.
  - change (component a 0 < component b 0)%N in Hc. lia.
  - done.
Qed.

Lemma tuple_lt_bump out p :
  bump_at to step out p -> (1 <= step)%N -> tuple_lt to out.
Proof.
  intros [Hbefore Hp] Hstep. apply (tuple_lt_intro p).
  - intros j Hj. symmetry. apply Hbefore. exact Hj.
  - rewrite Hp. lia.
Qed.

Lemma tuple_lt_base_advance base out i p :
  first_advance to 0 base = Some i -> i <= p ->
  bump_at to step out p -> tuple_le base to -> tuple_lt base out.
Proof.
  intros Hf Hip [Hbefore Hp] Hle.
  destruct (first_advance_Some _ _ _ Hf) as [Hi Hlow].
  rewrite Nat.sub_0_r in Hi.
  assert (forall j, j < i -> component base j = component to j) as Heq.
  { apply tuple_le_prefix; [exact Hle|].
    intros j Hj. specialize (Hlow j ltac:(lia)).
    rewrite Nat.sub_0_r in Hlow. exact Hlow. }
  apply (tuple_lt_intro i).
  - intros j Hj. rewrite Hbefore by lia. apply Heq. exact Hj.
  - destruct (decide (i = p)) as [->|Hne].
    + rewrite Hp. lia.
    + rewrite Hbefore by lia. exact Hi.
Qed.

Lemma tuple_lt_base_none base out :
  first_advance to 0 base = None -> base <> [] ->
  bump_at to step out (length base - 1) -> (1 <= step)%N ->
  tuple_le base to -> tuple_lt base out.
Proof.
  intros Hf Hne [Hbefore Hp] Hstep Hle.
  assert (0 < length base) as Hn by (destruct base; [done|simpl; lia]).
  assert (forall j, j < length base -> component base j = component to j)
    as Heq.
  { apply tuple_le_prefix; [exact Hle|].
    intros j Hj. pose proof (first_advance_None _ _ Hf j ltac:(lia)) as H.
    rewrite Nat.sub_0_r in H. exact H. }
  apply (tuple_lt_intro (length base - 1)).
  - intros j Hj. rewrite Hbefore by lia. apply Heq. lia.
  - rewrite Hp, Heq by lia. lia.
Qed.

(** *** Every component of the two outputs *)

Lemma lookup_component (l : list N) j :
  j < length l -> l !! j = Some (component l j).
Proof.
  intros Hj. unfold component.
  destruct (lookup_lt_is_Some_2 l j Hj) as [x ->]. reflexivity.
Qed.

Lemma list_eq_component (a b : list N) :
  length a = length b ->
  (forall j, j < length a -> component a j = component b j) -> a = b.
Proof.
  intros Hlen Hc. apply list_eq. intros j.
  destruct (decide (j < length a)) as [Hj|Hj].
  - rewrite !lookup_component by lia. f_equal. apply Hc. exact Hj.
  - rewrite !lookup_ge_None_2 by lia. reflexivity.
Qed.

Lemma Part001_length base :
  length (Part001.futureRelease base to step) = length base.
Proof.
  rewrite Part001_futureRelease_closed.
  destruct (first_advance to 0 base) as [i|] eqn:Hf.
  - pose proof (first_advance_range _ _ _ Hf).
    rewrite length_app, length_padded. simpl.
    rewrite length_replicate. lia.
  - rewrite length_add_at, length_padded. reflexivity.
Qed.

Lemma RangeTs_length base :
  length (RangeTs.futureRelease base to step) = length base.
Proof.
  rewrite RangeTs_futureRelease_closed.
  destruct (first_advance to 0 base) as [i|] eqn:Hf.
  - pose proof (first_advance_range _ _ _ Hf).
    repeat case_decide; rewrite length_add_at;
      rewrite ?length_app, ?length_padded, ?length_replicate; lia.
  - rewrite length_add_at, length_padded. reflexivity.
Qed.

Lemma Part001_zeros base i j :
  first_advance to 0 base = Some i -> i < j ->
  component (Part001.futureRelease base to step) j = 0%N.
Proof.
  intros Hf Hj. rewrite Part001_futureRelease_closed, Hf.
  rewrite (app_assoc _ [_] _ : _ ++ _ :: _ = _).
  apply component_zeros. rewrite length_app, length_padded. simpl. lia.
Qed.

Lemma RangeTs_zeros base i j :
  first_advance to 0 base = Some i -> i + 2 < length base -> i + 1 < j ->
  component (RangeTs.futureRelease base to step) j = 0%N.
Proof.
  intros Hf Hi Hj. rewrite RangeTs_futureRelease_closed, Hf.
  rewrite !decide_False by lia.
  rewrite component_add_at_ne by lia.
  apply component_zeros. rewrite length_padded. lia.
Qed.

Lemma RangeTs_kept base i :
  first_advance to 0 base = Some i -> i + 2 = length base ->
  component (RangeTs.futureRelease base to step) (i + 1)
  = component to (i + 1).
Proof.
  intros Hf Hi. rewrite RangeTs_futureRelease_closed, Hf.
  rewrite decide_False by lia. rewrite decide_True by lia.
  rewrite component_add_at_ne by lia. apply component_padded. lia.
Qed.

Lemma scans_agree_eq base :
  scans_agree base to step <->
  RangeTs.futureRelease base to step = Part001.futureRelease base to step.
Proof.
  unfold scans_agree.
  destruct (first_advance to 0 base) as [i|] eqn:Hf.
  - pose proof (first_advance_range _ _ _ Hf) as Hr.
    assert (base <> []) as Hne by (destruct base; [simpl in Hr; lia|done]).
    pose proof (Part001_bump_at base Hne) as [HP1 HP2].
    pose proof (RangeTs_bump_at base Hne) as [HR1 HR2].
    rewrite Hf in HP1, HP2, HR1, HR2.
    split.
    + intros Hc. apply list_eq_component.
      { rewrite RangeTs_length, Part001_length. reflexivity. }
      rewrite RangeTs_length. intros j Hj.
      destruct Hc as [He|[[He Hz]|(He & Hs & Hz)]].
      * rewrite decide_True in HR1, HR2 by exact He.
        destruct (decide (j = i)) as [->|Hji]; [congruence|].
        rewrite HR1, HP1 by lia. reflexivity.
      * rewrite decide_False in HR1, HR2 by lia.
        rewrite decide_True in HR1, HR2 by exact He.
        destruct (Nat.lt_trichotomy j i) as [Hc|[->|Hc]].
        -- rewrite HR1, HP1 by lia. reflexivity.
        -- congruence.
        -- replace j with (i + 1) by lia.
           rewrite (RangeTs_kept base i Hf He).
           rewrite (Part001_zeros base i (i + 1) Hf) by lia. exact Hz.
      * rewrite !decide_False in HR1, HR2 by lia.
        destruct (Nat.lt_trichotomy j i) as [Hc|[->|Hc]].
        -- rewrite HR1, HP1 by lia. reflexivity.
        -- rewrite HR1, HP2 by lia. lia.
        -- rewrite (Part001_zeros base i j Hf) by lia.
           destruct (decide (j = i + 1)) as [->|Hne1].
           ++ rewrite HR2. lia.
           ++ apply (RangeTs_zeros base i j Hf); lia.
    + intros Heq. rewrite Heq in HR1, HR2.
      destruct (decide (i + 1 = length base)) as [He|He]; [left; exact He|].
      right. destruct (decide (i + 2 = length base)) as [He2|He2].
      * left. split; [exact He2|].
        pose proof (RangeTs_kept base i Hf He2) as Hk. rewrite Heq in Hk.
        rewrite (Part001_zeros base i (i + 1) Hf) in Hk by lia.
        symmetry. exact Hk.
      * right. split; [lia|].
        pose proof (HR1 i ltac:(lia)) as Hi. rewrite HP2 in Hi.
        assert (step = 0%N) as Hs by lia. split; [exact Hs|].
        rewrite (Part001_zeros base i (i + 1) Hf) in HR2 by lia. lia.
  - split; [intros _|done].
    rewrite RangeTs_futureRelease_closed, Part001_futureRelease_closed, Hf.
    reflexivity.
Qed.

End FutureVersion.

(** ** The exact range *)

Lemma to_number_exact (n : N) : (n <= 2 ^ 53)%N -> to_number n = n.
Proof.
  intros Hn. unfold to_number.
  destruct (N.leb_spec n (2 ^ 53)) as [_|Hgt]; [reflexivity|lia].
Qed.

(** Sums of at most 2^53 are the sums of the integers. *)
Lemma number_add_exact (a b : N) :
  (a + b <= 2 ^ 53)%N -> number_add a b = (a + b)%N.
Proof. apply to_number_exact. Qed.

(** Beyond 2^53 a sum is rounded: 2^53 + 1 is 2^53 again, and 2^53 + 3 is
    2^53 + 4. *)
Example number_add_rounds :
  number_add (2 ^ 53) 1 = (2 ^ 53)%N /\
  number_add (2 ^ 53) 3 = (2 ^ 53 + 4)%N.
Proof. split; vm_compute; reflexivity. Qed.

(** Within the exact range every sum of a component of the target (or of
    the 0 standing in for a missing one) and the step is the number the
    source computes. *)
Lemma within_exact_range_sums (to : list N) (step : N) (i : nat) :
  within_exact_range to step ->
  number_add (component to i) step = (component to i + step)%N.
Proof.
  intros [Hstep Hall]. apply number_add_exact. unfold component.
  destruct (to !! i) as [c|] eqn:Hc; simpl; [|lia].
  rewrite Forall_lookup in Hall. exact (Hall i c Hc).
Qed.

(** ** Claims about [getFutureVersion] *)

(** C3, as amended.  For a non-empty base tuple, a step of at least 1, and
    a target whose components plus the step stay within the exact range of
    number arithmetic (at most 2^53), the release tuple produced by
    [getFutureVersion] (in both snapshots) is strictly greater than the
    target tuple under positional comparison with implicit zeros; when
    moreover the base is not above the target, which is how [getNewValue]
    calls it with step 1, it is strictly greater than the base tuple too. *)
Theorem C3_future_release_exceeds (base to : list N) (step : N) :
  base <> [] -> (1 <= step)%N -> within_exact_range to step ->
  (tuple_lt to (RangeTs.futureRelease base to step) /\
   tuple_lt to (Part001.futureRelease base to step)) /\
  (tuple_le base to ->
   tuple_lt base (RangeTs.futureRelease base to step) /\
   tuple_lt base (Part001.futureRelease base to step)).
Proof.
  intros Hne Hstep _.
  pose proof (RangeTs_bump_at to step base Hne) as HR.
  pose proof (Part001_bump_at to step base Hne) as HP.
  split.
  - split; eapply tuple_lt_bump; eauto.
  - intros Hle. destruct (first_advance to 0 base) as [i|] eqn:Hf.
    + split.
      * eapply (tuple_lt_base_advance to step base _ i);
          [exact Hf| |exact HR|exact Hle].
        repeat case_decide; lia.
      * eapply (tuple_lt_base_advance to step base _ i);
          [exact Hf| |exact HP|exact Hle].
        lia.
    + split; eapply tuple_lt_base_none; eauto.
Qed.

Lemma C3_future_release_exceeds_witness :
  let base := [2; 0; 0]%N in
  let to := [2; 3; 0]%N in
  (tuple_lt to (RangeTs.futureRelease base to 1) /\
   tuple_lt to (Part001.futureRelease base to 1)) /\
  (tuple_lt base (RangeTs.futureRelease base to 1) /\
   tuple_lt base (Part001.futureRelease base to 1)).
Proof.
  intros base to.
  destruct (C3_future_release_exceeds base to 1%N) as [Hto Hbase].
  - discriminate.
  - lia.
  - split; [|repeat constructor]; vm_compute; discriminate.
  - split; [exact Hto|]. apply Hbase. unfold tuple_le. vm_compute.
    discriminate.
Defined.

(** With step 0, the step of the wildcard rule, the output can be the
    target itself: base 1.2, target 1.4 give 1.4 in both snapshots. *)
Lemma C3_counterexample :
  ~ tuple_lt [1; 4]%N (RangeTs.futureRelease [1; 2]%N [1; 4]%N 0) /\
  ~ tuple_lt [1; 4]%N (Part001.futureRelease [1; 2]%N [1; 4]%N 0).
Proof. split; vm_compute; discriminate. Qed.

(** With a target below the base the output stays below the base even for
    step 1: base 2.0, target 1.5 give 1.6. *)
Example future_release_below_base :
  Part001.futureRelease [2; 0]%N [1; 5]%N 1 = [1; 6]%N /\
  RangeTs.futureRelease [2; 0]%N [1; 5]%N 1 = [1; 6]%N /\
  tuple_lt [1; 6]%N [2; 0]%N.
Proof. repeat split. Qed.

(** An invalid base version has no release: the output is empty, which is
    not above any target. *)
Example future_release_empty_base :
  Part001.futureRelease [] [1]%N 1 = [] /\
  RangeTs.futureRelease [] [1]%N 1 = [] /\
  ~ tuple_lt [1]%N [].
Proof. repeat split. vm_compute. discriminate. Qed.

(** C5, as amended.  Positions are those of the base tuple, and the
    target's components plus the step stay within the exact range of number
    arithmetic (at most 2^53), so that every sum below is the number the
    source computes.  In src/unnamed/part_001 the output has the length of the base; at the
    advance point it holds the target's component plus step, after it
    zeros, before it the target's components; without an advance point the
    last position holds the target's component plus step and the others
    the target's components.  In range.ts the output is the same when the
    advance point is absent or last; when exactly one position follows the
    advance point, that last position keeps the target's component; when
    more follow, the advance point copies the target and the step is added
    to the target's component at the next position, zeros after it. *)
Theorem C5_future_version_walk (base to : list N) (step : N) :
  let out := Part001.futureRelease base to step in
  let out' := RangeTs.futureRelease base to step in
  within_exact_range to step ->
  (length out = length base /\
   (forall i, advance_point base to i ->
      out !! i = Some (component to i + step)%N /\
      (forall j, i < j < length base -> out !! j = Some 0%N) /\
      (forall j, j < i -> out !! j = Some (component to j))) /\
   (no_advance base to -> base <> [] ->
      out !! (length base - 1)
      = Some (component to (length base - 1) + step)%N /\
      (forall j, j < length base - 1 -> out !! j = Some (component to j)))) /\
  (length out' = length base /\
   (no_advance base to -> out' = out) /\
   (forall i, advance_point base to i ->
      (i + 1 = length base -> out' = out) /\
      (i + 2 = length base ->
         out' !! i = Some (component to i + step)%N /\
         out' !! (i + 1) = Some (component to (i + 1)) /\
         (forall j, j < i -> out' !! j = Some (component to j))) /\
      (i + 2 < length base ->
         out' !! i = Some (component to i) /\
         out' !! (i + 1) = Some (component to (i + 1) + step)%N /\
         (forall j, i + 1 < j < length base -> out' !! j = Some 0%N) /\
         (forall j, j < i -> out' !! j = Some (component to j))))).
Proof.
  intros out out' _.
  pose proof (Part001_length to step base) as HlenP.
  pose proof (RangeTs_length to step base) as HlenR.
  fold out in HlenP. fold out' in HlenR.
  split; (split; [assumption|]).
  - split.
    + intros i Hadv. pose proof Hadv as (Hi & _ & _).
      apply advance_point_first in Hadv.
      assert (base <> []) as Hne by (destruct base; [simpl in Hi; lia|done]).
      pose proof (Part001_bump_at to step base Hne) as [H1 H2].
      rewrite Hadv in H1, H2. fold out in H1, H2.
      split; [|split].
      * rewrite lookup_component by lia. f_equal. exact H2.
      * intros j Hj. rewrite lookup_component by lia. f_equal.
        apply (Part001_zeros to step base i j Hadv). lia.
      * intros j Hj. rewrite lookup_component by lia. f_equal.
        apply H1. exact Hj.
    + intros Hno Hne. apply no_advance_first in Hno.
      assert (0 < length base) as Hn by (destruct base; [done|simpl; lia]).
      pose proof (Part001_bump_at to step base Hne) as [H1 H2].
      rewrite Hno in H1, H2. fold out in H1, H2.
      split.
      * rewrite lookup_component by lia. f_equal. exact H2.
      * intros j Hj. rewrite lookup_component by lia. f_equal.
        apply H1. exact Hj.
  - split.
    + intros Hno. apply no_advance_first in Hno.
      apply scans_agree_eq. unfold scans_agree. rewrite Hno. exact I.
    + intros i Hadv. pose proof Hadv as (Hi & _ & _).
      apply advance_point_first in Hadv.
      assert (base <> []) as Hne by (destruct base; [simpl in Hi; lia|done]).
      pose proof (RangeTs_bump_at to step base Hne) as [H1 H2].
      rewrite Hadv in H1, H2. fold out' in H1, H2.
      split; [|split].
      * intros He. apply scans_agree_eq. unfold scans_agree.
        rewrite Hadv. left. exact He.
      * intros He. rewrite decide_False in H1, H2 by lia.
        rewrite decide_True in H1, H2 by exact He.
        split; [|split].
        -- rewrite lookup_component by lia. f_equal. exact H2.
        -- rewrite lookup_component by lia. f_equal.
           apply (RangeTs_kept to step base i Hadv He).
        -- intros j Hj. rewrite lookup_component by lia. f_equal.
           apply H1. exact Hj.
      * intros He. rewrite !decide_False in H1, H2 by lia.
        split; [|split; [|split]].
        -- rewrite lookup_component by lia. f_equal. apply H1. lia.
        -- rewrite lookup_component by lia. f_equal. exact H2.
        -- intros j Hj. rewrite lookup_component by lia. f_equal.
           apply (RangeTs_zeros to step base i j Hadv); lia.
        -- intros j Hj. rewrite lookup_component by lia. f_equal.
           apply H1. lia.
Qed.

Lemma C5_future_version_walk_witness :
  (advance_point [1; 0; 0]%N [2; 3; 4]%N 0 /\
   Part001.futureRelease [1; 0; 0]%N [2; 3; 4]%N 1 !! 0 = Some 3%N /\
   RangeTs.futureRelease [1; 0; 0]%N [2; 3; 4]%N 1 !! 1 = Some 4%N) /\
  (no_advance [1; 2]%N [1; 2; 5]%N /\
   Part001.futureRelease [1; 2]%N [1; 2; 5]%N 1 !! 1 = Some 3%N /\
   RangeTs.futureRelease [1; 2]%N [1; 2; 5]%N 1
   = Part001.futureRelease [1; 2]%N [1; 2; 5]%N 1).
Proof.
  assert (advance_point [1; 0; 0]%N [2; 3; 4]%N 0) as Hadv.
  { split; [simpl; lia|]. split; [vm_compute; reflexivity|]. intros j Hj. lia. }
  assert (no_advance [1; 2]%N [1; 2; 5]%N) as Hno.
  { intros j Hj. simpl in Hj.
    destruct j as [|[|j]]; [vm_compute; discriminate ..|lia]. }
  split.
  - destruct (C5_future_version_walk [1; 0; 0]%N [2; 3; 4]%N 1)
      as [(_ & HP & _) (_ & _ & HR)].
    { split; [|repeat constructor]; vm_compute; discriminate. }
    split; [exact Hadv|]. split.
    + exact (proj1 (HP 0 Hadv)).
    + destruct (HR 0 Hadv) as (_ & _ & H3).
      exact (proj1 (proj2 (H3 ltac:(simpl; lia)))).
  - destruct (C5_future_version_walk [1; 2]%N [1; 2; 5]%N 1)
      as [(_ & _ & HP) (_ & HR & _)].
    { split; [|repeat constructor]; vm_compute; discriminate. }
    split; [exact Hno|]. split.
    + exact (proj1 (HP Hno ltac:(discriminate))).
    + exact (HR Hno).
Defined.

(** In range.ts the advance point of base 1.0.0 and target 2.3.4 (position
    0) copies the target, and the step goes to position 1. *)
Lemma C5_counterexample :
  advance_point [1; 0; 0]%N [2; 3; 4]%N 0 /\
  RangeTs.futureRelease [1; 0; 0]%N [2; 3; 4]%N 1 !! 0
  <> Some (component [2; 3; 4]%N 0 + 1)%N /\
  RangeTs.futureRelease [1; 0; 0]%N [2; 3; 4]%N 1 = [2; 4; 0]%N.
Proof.
  split; [|split].
  - split; [simpl; lia|]. split; [vm_compute; reflexivity|]. intros j Hj. lia.
  - vm_compute. discriminate.
  - vm_compute. reflexivity.
Qed.

(** C10, as amended.  The two [getFutureVersion] produce the same release
    tuple exactly when [scans_agree] holds: the advance point is absent or
    is the last position of the base; or it is the last but one and the
    target's component after it is 0; or it is earlier, step is 0 and the
    target's component after it is 0.  In those cases the output strings
    are the same. *)
Theorem C10_future_version_agreement `{Pep440.Lib}
    (baseVersion newVersion : string) (step : N) :
  let base := release_of baseVersion in
  let to := release_of newVersion in
  (scans_agree base to step <->
   RangeTs.futureRelease base to step = Part001.futureRelease base to step) /\
  (scans_agree base to step ->
   RangeTs.getFutureVersion baseVersion newVersion step
   = Part001.getFutureVersion baseVersion newVersion step).
Proof.
  intros base to. split; [apply scans_agree_eq|].
  intros Hagree. apply scans_agree_eq in Hagree.
  unfold RangeTs.getFutureVersion, Part001.getFutureVersion.
  fold base to. rewrite Hagree. reflexivity.
Qed.

Lemma C10_future_version_agreement_witness :
  scans_agree [2; 0; 0]%N [2; 3; 0]%N 1 /\
  @RangeTs.getFutureVersion Release.lib "2.0.0" "2.3.0" 1
  = @Part001.getFutureVersion Release.lib "2.0.0" "2.3.0" 1.
Proof.
  assert (scans_agree [2; 0; 0]%N [2; 3; 0]%N 1) as Hagree.
  { right. left. split; reflexivity. }
  split; [exact Hagree|].
  exact (proj2 (@C10_future_version_agreement Release.lib "2.0.0" "2.3.0" 1)
               Hagree).
Defined.

(** Base 1.0.0, target 2.3.4, step 1: range.ts gives 2.4.0, part_001 gives
    3.0.0. *)
Lemma C10_counterexample :
  @RangeTs.getFutureVersion Release.lib "1.0.0" "2.3.4" 1 = "2.4.0" /\
  @Part001.getFutureVersion Release.lib "1.0.0" "2.3.4" 1 = "3.0.0" /\
  @RangeTs.getFutureVersion Release.lib "1.0.0" "2.3.4" 1
  <> @Part001.getFutureVersion Release.lib "1.0.0" "2.3.4" 1.
Proof. repeat split. vm_compute. discriminate. Qed.

(** * [getNewValue] *)

(** One step of the outcome monad *)
Ltac run_bind := cbn [mbind outcome_bind mret outcome_ret].

Section NewValue.

Context `{L : Pep440.Lib}.

Lemma includes_elem_of (l : list string) (x : string) :
  includes l x = true <-> x ∈ l.
Proof.
  unfold includes. rewrite existsb_exists. split.
  - intros (y & Hin & Heq). apply String.eqb_eq in Heq. subst y.
    apply list_elem_of_In. exact Hin.
  - intros Hin. exists x. split; [apply list_elem_of_In; exact Hin|].
    apply String.eqb_refl.
Qed.

Lemma assemble_validated currentValue newVersion rewritten R :
  assemble currentValue newVersion rewritten = Ret (Some R) ->
  Pep440.satisfies newVersion R = Ret true.
Proof.
  unfold assemble.
  set (result := if _ : bool then _ else _).
  destruct (Pep440.satisfies newVersion result) as [[|]|] eqn:Hsat;
    run_bind; [|discriminate..].
  intros [= <-]. exact Hsat.
Qed.

(** The recursive call is made with ['replace'], for which [getNewValueF]
    does not use [self]. *)
Lemma RangeTs_getNewValueF_replace self1 self2 cv cver nv :
  RangeTs.getNewValueF self1
    {| currentValue := cv; rangeStrategy := "replace";
       currentVersion := cver; newVersion := nv |}
  = RangeTs.getNewValueF self2
    {| currentValue := cv; rangeStrategy := "replace";
       currentVersion := cver; newVersion := nv |}.
Proof. reflexivity. Qed.

Lemma Part001_getNewValueF_replace self1 self2 cv cver nv :
  Part001.getNewValueF self1
    {| currentValue := cv; rangeStrategy := "replace";
       currentVersion := cver; newVersion := nv |}
  = Part001.getNewValueF self2
    {| currentValue := cv; rangeStrategy := "replace";
       currentVersion := cver; newVersion := nv |}.
Proof. reflexivity. Qed.

(** [getNewValue] is the function its body calls. *)
Lemma RangeTs_getNewValue_unfold config :
  RangeTs.getNewValue config = RangeTs.getNewValueF RangeTs.getNewValue config.
Proof.
  destruct config as [cv rs cver nv]. unfold RangeTs.getNewValue.
  unfold RangeTs.getNewValueF at 1 3.
  repeat (case_match; try reflexivity).
Qed.

Lemma Part001_getNewValue_unfold config :
  Part001.getNewValue config = Part001.getNewValueF Part001.getNewValue config.
Proof.
  destruct config as [cv rs cver nv]. unfold Part001.getNewValue.
  unfold Part001.getNewValueF at 1 3.
  repeat (case_match; try reflexivity).
Qed.

(** *** Results that went through a check *)

(** Past the three early returns, [getNewValueF] returns a string only
    after [satisfies] accepted it, provided [self] does so. *)
Ltac past_early_returns rs cv cver ranges Hparse :=
  destruct (String.eqb_spec rs "pin") as [|_]; [done|];
  destruct (String.eqb_spec cv cver) as [|_]; [done|];
  destruct (Pep440.parseRange cv) as [ranges|] eqn:Hparse;
    [|discriminate];
  destruct ranges as [|range ranges]; [done|];
  cbn [length Nat.eqb].

Lemma RangeTs_getNewValueF_validated self cv rs cver nv R :
  rs <> "pin" -> cv <> cver -> Pep440.parseRange cv <> Some [] ->
  (forall R',
      self {| currentValue := cv; rangeStrategy := "replace";
              currentVersion := cver; newVersion := nv |} = Ret (Some R') ->
      Pep440.satisfies nv R' = Ret true) ->
  RangeTs.getNewValueF self
    {| currentValue := cv; rangeStrategy := rs;
       currentVersion := cver; newVersion := nv |} = Ret (Some R) ->
  Pep440.satisfies nv R = Ret true.
Proof.
  intros Hpin Hne Hempty Hself. unfold RangeTs.getNewValueF.
  past_early_returns rs cv cver ranges Hparse.
  destruct (_ || _).
  - destruct (Pep440.satisfies nv cv) as [[|]|] eqn:Hsat; run_bind;
      [intros [= <-]; exact Hsat| |discriminate].
    destruct (negb _); [apply Hself|].
    destruct (some_arbitrary_equality _); [discriminate|].
    destruct (mapM _ _) as [rewritten|]; run_bind; [|discriminate].
    apply assemble_validated.
  - run_bind. destruct (negb _); [apply Hself|].
    destruct (some_arbitrary_equality _); [discriminate|].
    destruct (mapM _ _) as [rewritten|]; run_bind; [|discriminate].
    apply assemble_validated.
Qed.

Lemma Part001_getNewValueF_validated self cv rs cver nv R :
  rs <> "pin" -> cv <> cver -> Pep440.parseRange cv <> Some [] ->
  (forall R',
      self {| currentValue := cv; rangeStrategy := "replace";
              currentVersion := cver; newVersion := nv |} = Ret (Some R') ->
      Pep440.satisfies nv R' = Ret true) ->
  Part001.getNewValueF self
    {| currentValue := cv; rangeStrategy := rs;
       currentVersion := cver; newVersion := nv |} = Ret (Some R) ->
  Pep440.satisfies nv R = Ret true.
Proof.
  intros Hpin Hne Hempty Hself. unfold Part001.getNewValueF.
  past_early_returns rs cv cver ranges Hparse.
  destruct (_ || _).
  - destruct (Pep440.satisfies nv cv) as [[|]|] eqn:Hsat; run_bind;
      [intros [= <-]; exact Hsat| |discriminate].
    destruct (negb _); [apply Hself|].
    destruct (some_arbitrary_equality _); [discriminate|].
    destruct (mapM _ _) as [rewritten|]; run_bind; [|discriminate].
    apply assemble_validated.
  - run_bind. destruct (negb _); [apply Hself|].
    destruct (some_arbitrary_equality _); [discriminate|].
    destruct (mapM _ _) as [rewritten|]; run_bind; [|discriminate].
    apply assemble_validated.
Qed.

(** With the early returns: the [pin] return hands back ['==' +
    newVersion] and the empty-constraint return hands back [currentValue],
    neither after a check, so the result is satisfied when the library
    accepts these two strings for the new version. *)
Lemma RangeTs_getNewValueF_satisfied self cv rs cver nv R :
  rs = "pin" \/ cv <> cver ->
  (rs = "pin" -> Pep440.satisfies nv ("==" +:+ nv) = Ret true) ->
  (Pep440.parseRange cv = Some [] -> Pep440.satisfies nv cv = Ret true) ->
  (rs <> "pin" -> forall R',
      self {| currentValue := cv; rangeStrategy := "replace";
              currentVersion := cver; newVersion := nv |} = Ret (Some R') ->
      Pep440.satisfies nv R' = Ret true) ->
  RangeTs.getNewValueF self
    {| currentValue := cv; rangeStrategy := rs;
       currentVersion := cver; newVersion := nv |} = Ret (Some R) ->
  Pep440.satisfies nv R = Ret true.
Proof.
  intros Hcase Hpin Hempty Hself.
  destruct (String.eqb_spec rs "pin") as [Heq|Hnp].
  - unfold RangeTs.getNewValueF. rewrite Heq, String.eqb_refl.
    intros [= <-]. apply Hpin. exact Heq.
  - destruct Hcase as [|Hne]; [done|].
    destruct (Pep440.parseRange cv) as [[|range ranges]|] eqn:Hparse.
    + unfold RangeTs.getNewValueF.
      destruct (String.eqb_spec rs "pin") as [|_]; [done|].
      destruct (String.eqb_spec cv cver) as [|_]; [done|].
      rewrite Hparse. cbn [length Nat.eqb]. intros [= <-].
      apply Hempty. reflexivity.
    + apply RangeTs_getNewValueF_validated; auto.
      rewrite Hparse. discriminate.
    + apply RangeTs_getNewValueF_validated; auto.
      rewrite Hparse. discriminate.
Qed.

Lemma Part001_getNewValueF_satisfied self cv rs cver nv R :
  rs = "pin" \/ cv <> cver ->
  (rs = "pin" -> Pep440.satisfies nv ("==" +:+ nv) = Ret true) ->
  (Pep440.parseRange cv = Some [] -> Pep440.satisfies nv cv = Ret true) ->
  (rs <> "pin" -> forall R',
      self {| currentValue := cv; rangeStrategy := "replace";
              currentVersion := cver; newVersion := nv |} = Ret (Some R') ->
      Pep440.satisfies nv R' = Ret true) ->
  Part001.getNewValueF self
    {| currentValue := cv; rangeStrategy := rs;
       currentVersion := cver; newVersion := nv |} = Ret (Some R) ->
  Pep440.satisfies nv R = Ret true.
Proof.
  intros Hcase Hpin Hempty Hself.
  destruct (String.eqb_spec rs "pin") as [Heq|Hnp].
  - unfold Part001.getNewValueF. rewrite Heq, String.eqb_refl.
    intros [= <-]. apply Hpin. exact Heq.
  - destruct Hcase as [|Hne]; [done|].
    destruct (Pep440.parseRange cv) as [[|range ranges]|] eqn:Hparse.
    + unfold Part001.getNewValueF.
      destruct (String.eqb_spec rs "pin") as [|_]; [done|].
      destruct (String.eqb_spec cv cver) as [|_]; [done|].
      rewrite Hparse. cbn [length Nat.eqb]. intros [= <-].
      apply Hempty. reflexivity.
    + apply Part001_getNewValueF_validated; auto.
      rewrite Hparse. discriminate.
    + apply Part001_getNewValueF_validated; auto.
      rewrite Hparse. discriminate.
Qed.

(** *** The already-satisfied shortcut *)

Lemma RangeTs_getNewValueF_noop self cv rs cver nv ranges :
  rs = "auto" \/ rs = "replace" ->
  Pep440.parseRange cv = Some ranges ->
  Pep440.satisfies nv cv = Ret true ->
  cv <> cver ->
  RangeTs.getNewValueF self
    {| currentValue := cv; rangeStrategy := rs;
       currentVersion := cver; newVersion := nv |} = Ret (Some cv).
Proof.
  intros Hrs Hparse Hsat Hne. unfold RangeTs.getNewValueF.
  rewrite Hparse.
  destruct (String.eqb_spec cv cver) as [|_]; [done|].
  destruct Hrs as [-> | ->]; simpl;
    (destruct ranges; simpl; [reflexivity|]); rewrite Hsat; reflexivity.
Qed.

Lemma Part001_getNewValueF_noop self cv rs cver nv ranges :
  rs = "auto" \/ rs = "replace" ->
  Pep440.parseRange cv = Some ranges ->
  Pep440.satisfies nv cv = Ret true ->
  cv <> cver ->
  Part001.getNewValueF self
    {| currentValue := cv; rangeStrategy := rs;
       currentVersion := cver; newVersion := nv |} = Ret (Some cv).
Proof.
  intros Hrs Hparse Hsat Hne. unfold Part001.getNewValueF.
  rewrite Hparse.
  destruct (String.eqb_spec cv cver) as [|_]; [done|].
  destruct Hrs as [-> | ->]; simpl;
    (destruct ranges; simpl; [reflexivity|]); rewrite Hsat; reflexivity.
Qed.

End NewValue.

(** ** The rule table *)

Lemma mapM_Ret_Forall2 {A B} (f : A -> outcome B) (l : list A) (r : list B) :
  mapM f l = Ret r -> Forall2 (fun a b => f a = Ret b) l r.
Proof.
  revert r. induction l as [|a l IH]; intros r; cbn [mapM]; run_bind.
  - intros [= <-]. constructor.
  - destruct (f a) as [b|] eqn:Hb; run_bind; [|discriminate].
    destruct (mapM f l) as [bs|]; run_bind; [|discriminate].
    intros [= <-]. constructor; [exact Hb|]. apply IH. reflexivity.
Qed.

Lemma append_nonempty_l (a b : string) : a <> "" -> a +:+ b <> "".
Proof. destruct a; [done|discriminate]. Qed.

Lemma append_nonempty_r (a b : string) : b <> "" -> a +:+ b <> "".
Proof. destruct a; [done|discriminate]. Qed.

Section RuleTable.

Context `{L : Pep440.Lib}.
Variables (ranges : list Range) (rangeStrategy newVersion : string).

(** Case analysis over the operator tests of a rule table *)
Ltac by_operator op :=
  repeat match goal with
    | |- context [String.eqb op ?s] =>
        destruct (String.eqb_spec op s) as [->|?];
        cbn [includes existsb String.eqb Ascii.eqb Bool.eqb orb andb negb]
    end.

Ltac by_outcome :=
  repeat match goal with
    | |- context [mbind _ ?m] =>
        destruct m as [[|]|]; run_bind
    end.

Lemma RangeTs_rewrite_exclusion range :
  operator range = "!=" ->
  RangeTs.rewrite rangeStrategy newVersion range
  = Ret (Some (operator range +:+ version range)).
Proof. intros Hop. unfold RangeTs.rewrite. rewrite Hop. reflexivity. Qed.

Lemma Part001_rewrite_exclusion range :
  operator range = "!=" ->
  Part001.rewrite ranges rangeStrategy newVersion range
  = Ret (Some (operator range +:+ version range)).
Proof. intros Hop. unfold Part001.rewrite. rewrite Hop. reflexivity. Qed.

Lemma RangeTs_rewrite_classified range o :
  RangeTs.rewrite rangeStrategy newVersion range = Ret o ->
  (o = None <-> classifiable range = false) /\ o <> Some "".
Proof.
  destruct range as [op pre ver].
  unfold RangeTs.rewrite, classifiable.
  cbn [operator prefix version includes existsb].
  by_operator op; by_outcome;
    try (destruct (String.eqb rangeStrategy "bump"));
    try (destruct (truthy pre) eqn:Hpre);
    cbn [orb andb]; intros [= <-]; split;
    try (split; discriminate); try done;
    intros [= Hs]; revert Hs;
    try (apply append_nonempty_l; discriminate).
  all: do 2 apply append_nonempty_r; discriminate.
Qed.

Lemma Part001_rewrite_classified range o :
  Part001.rewrite ranges rangeStrategy newVersion range = Ret o ->
  (o = None <-> classifiable range = false) /\ o <> Some "".
Proof.
  destruct range as [op pre ver].
  unfold Part001.rewrite, classifiable.
  cbn [operator prefix version includes existsb].
  by_operator op; by_outcome;
    try (destruct (Part001.getUserReplacePrecision ranges));
    try (destruct (String.eqb rangeStrategy "replace"));
    try (destruct (String.eqb rangeStrategy "bump"));
    try (destruct (truthy pre) eqn:Hpre);
    cbn [orb andb]; intros [= <-]; split;
    try (split; discriminate); try done;
    intros [= Hs]; revert Hs;
    try (apply append_nonempty_l; discriminate).
  all: do 2 apply append_nonempty_r; discriminate.
Qed.

Lemma filter_Boolean_nulls (rewritten : list (option string)) :
  Forall (fun o => o <> Some "") rewritten ->
  filter_Boolean rewritten = omap id rewritten.
Proof.
  unfold filter_Boolean. induction 1 as [|o l Ho _ IH]; [reflexivity|].
  cbn [omap list_omap]. fold (@omap list _ _ _ (@id (option string)) l).
  rewrite <- IH. destruct o as [s|]; [|reflexivity].
  destruct (String.eqb_spec s ""); [congruence|reflexivity].
Qed.

End RuleTable.

(** ** Claims about [getNewValue] *)




(** C2, as amended.  On ['>=1.0.0,<2.0.0'], ['replace'], ['1.5.0'],
    ['2.3.0'] the [getNewValue] of src/unnamed/part_001 returns
    ['>=2.3.0,<3.0.0']: the upper bound is advanced at the inferred Major
    precision, and the lower bound is tightened to the new version, as the
    [>=] rule does under [replace].  The [getNewValue] of range.ts returns
    ['>=1.0.0,<2.4.0'].  Both hold for every library that parses and
    compares these strings as PEP 440 says. *)
Theorem C2_replace_scenario `{Pep440.Lib} :
  let config := {| currentValue := ">=1.0.0,<2.0.0";
                   rangeStrategy := "replace";
                   currentVersion := "1.5.0";
                   newVersion := "2.3.0" |} in
  Pep440.parseRange ">=1.0.0,<2.0.0"
  = Some [ {| operator := ">="; prefix := None; version := "1.0.0" |};
           {| operator := "<"; prefix := None; version := "2.0.0" |} ] ->
  Pep440.parseVersion "1.0.0" = Some {| release := [1; 0; 0]%N |} ->
  Pep440.parseVersion "2.0.0" = Some {| release := [2; 0; 0]%N |} ->
  Pep440.parseVersion "2.3.0" = Some {| release := [2; 3; 0]%N |} ->
  Pep440.satisfies "2.3.0" ">=1.0.0,<2.0.0" = Ret false ->
  Pep440.lte "2.3.0" "1.0.0" = Ret false ->
  Pep440.gte "2.3.0" "2.0.0" = Ret true ->
  Pep440.satisfies "2.3.0" ">=2.3.0,<3.0.0" = Ret true ->
  Pep440.satisfies "2.3.0" ">=1.0.0,<2.4.0" = Ret true ->
  Part001.getNewValue config = Ret (Some ">=2.3.0,<3.0.0") /\
  RangeTs.getNewValue config = Ret (Some ">=1.0.0,<2.4.0").
Proof.
  intros config Hparse Hv1 Hv2 Hv3 Hout Hlte Hgte Hsat1 Hsat2.
  set (lower := {| operator := ">="; prefix := None; version := "1.0.0" |})
    in *.
  set (upper := {| operator := "<"; prefix := None; version := "2.0.0" |})
    in *.
  assert (Part001.rewrite [lower; upper] "replace" "2.3.0" lower
          = Ret (Some ">=2.3.0")) as HlowerP.
  { unfold Part001.rewrite. cbn. rewrite Hlte. reflexivity. }
  assert (Part001.rewrite [lower; upper] "replace" "2.3.0" upper
          = Ret (Some "<3.0.0")) as HupperP.
  { unfold Part001.rewrite. cbn. rewrite Hgte. run_bind.
    unfold Part001.getUserReplacePrecision, Part001.getFutureReplaceVersion,
      release_of.
    cbn [lower upper version]. rewrite Hv1, Hv2, Hv3. reflexivity. }
  assert (RangeTs.rewrite "replace" "2.3.0" lower = Ret (Some ">=1.0.0"))
    as HlowerR.
  { unfold RangeTs.rewrite. cbn. rewrite Hlte. reflexivity. }
  assert (RangeTs.rewrite "replace" "2.3.0" upper = Ret (Some "<2.4.0"))
    as HupperR.
  { unfold RangeTs.rewrite. cbn. rewrite Hgte. run_bind.
    unfold RangeTs.getFutureVersion, release_of.
    cbn [upper version]. rewrite Hv2, Hv3. reflexivity. }
  assert (assemble ">=1.0.0,<2.0.0" "2.3.0" [Some ">=2.3.0"; Some "<3.0.0"]
          = Ret (Some ">=2.3.0,<3.0.0")) as HjoinP.
  { unfold assemble. set (result := if _ : bool then _ else _).
    vm_compute in (value of result). subst result.
    rewrite Hsat1. reflexivity. }
  assert (assemble ">=1.0.0,<2.0.0" "2.3.0" [Some ">=1.0.0"; Some "<2.4.0"]
          = Ret (Some ">=1.0.0,<2.4.0")) as HjoinR.
  { unfold assemble. set (result := if _ : bool then _ else _).
    vm_compute in (value of result). subst result.
    rewrite Hsat2. reflexivity. }
  split.
  - unfold Part001.getNewValue, Part001.getNewValueF, config.
    cbn [String.eqb Ascii.eqb Bool.eqb]. rewrite Hparse.
    cbn [length Nat.eqb orb]. rewrite Hout. run_bind.
    cbn [includes existsb String.eqb Ascii.eqb Bool.eqb orb negb].
    cbn [mapM]. rewrite HlowerP, HupperP. run_bind. exact HjoinP.
  - unfold RangeTs.getNewValue, RangeTs.getNewValueF, config.
    cbn [String.eqb Ascii.eqb Bool.eqb]. rewrite Hparse.
    cbn [length Nat.eqb orb]. rewrite Hout. run_bind.
    cbn [includes existsb String.eqb Ascii.eqb Bool.eqb orb negb].
    cbn [mapM]. rewrite HlowerR, HupperR. run_bind. exact HjoinR.
Qed.

Lemma C2_replace_scenario_witness :
  let config := {| currentValue := ">=1.0.0,<2.0.0";
                   rangeStrategy := "replace";
                   currentVersion := "1.5.0";
                   newVersion := "2.3.0" |} in
  @Part001.getNewValue Release.lib config = Ret (Some ">=2.3.0,<3.0.0") /\
  @RangeTs.getNewValue Release.lib config = Ret (Some ">=1.0.0,<2.4.0").
Proof.
  apply (@C2_replace_scenario Release.lib); vm_compute; reflexivity.
Defined.

(** The lower bound does not stay at 1.0.0 when the upper bound goes to
    3.0.0. *)
Lemma C2_counterexample :
  let config := {| currentValue := ">=1.0.0,<2.0.0";
                   rangeStrategy := "replace";
                   currentVersion := "1.5.0";
                   newVersion := "2.3.0" |} in
  @Part001.getNewValue Release.lib config <> Ret (Some ">=1.0.0,<3.0.0") /\
  @RangeTs.getNewValue Release.lib config <> Ret (Some ">=1.0.0,<3.0.0").
Proof. split; vm_compute; discriminate. Qed.

(** The other scenarios of the range computation *)
Example wildcard_scenario :
  let config := {| currentValue := "==1.2.*"; rangeStrategy := "replace";
                   currentVersion := "1.2.3"; newVersion := "1.4.0" |} in
  @RangeTs.getNewValue Release.lib config = Ret (Some "==1.4.*") /\
  @Part001.getNewValue Release.lib config = Ret (Some "==1.4.*").
Proof. split; reflexivity. Qed.

Example bump_scenario :
  let config := {| currentValue := ">=1.0.0"; rangeStrategy := "bump";
                   currentVersion := "1.0.0"; newVersion := "1.2.0" |} in
  @RangeTs.getNewValue Release.lib config = Ret (Some ">=1.2.0") /\
  @Part001.getNewValue Release.lib config = Ret (Some ">=1.2.0").
Proof. split; reflexivity. Qed.

(** C4, as amended.  For a [>=] clause whose version the new version is
    not at or below: in src/unnamed/part_001 the rule emits [>=] followed
    by the new version under [replace] and under [bump], and the clause
    unchanged under every other strategy that reaches it ([widen]); in
    range.ts only [bump] emits [>=] followed by the new version, and
    [replace] emits the clause unchanged. *)
Theorem C4_lower_bound_rule `{Pep440.Lib} (ranges : list Range)
    (rangeStrategy newVersion : string) (range : Range) :
  operator range = ">=" ->
  Pep440.lte newVersion (version range) = Ret false ->
  (rangeStrategy = "replace" \/ rangeStrategy = "bump" ->
   Part001.rewrite ranges rangeStrategy newVersion range
   = Ret (Some (">=" +:+ newVersion))) /\
  (rangeStrategy <> "replace" -> rangeStrategy <> "bump" ->
   Part001.rewrite ranges rangeStrategy newVersion range
   = Ret (Some (">=" +:+ version range))) /\
  (rangeStrategy = "bump" ->
   RangeTs.rewrite rangeStrategy newVersion range
   = Ret (Some (">=" +:+ newVersion))) /\
  (rangeStrategy <> "bump" ->
   RangeTs.rewrite rangeStrategy newVersion range
   = Ret (Some (">=" +:+ version range))).
Proof.
  intros Hop Hlte. unfold Part001.rewrite, RangeTs.rewrite.
  rewrite Hop, Hlte. cbn. repeat split.
  - intros [-> | ->]; reflexivity.
  - intros Hr Hb.
    destruct (String.eqb_spec rangeStrategy "replace"); [done|].
    destruct (String.eqb_spec rangeStrategy "bump"); [done|]. reflexivity.
  - intros ->. reflexivity.
  - intros Hb.
    destruct (String.eqb_spec rangeStrategy "bump"); [done|]. reflexivity.
Qed.

Lemma C4_lower_bound_rule_witness :
  let range := {| operator := ">="; prefix := None; version := "1.0.0" |} in
  @Part001.rewrite Release.lib [range] "replace" "1.2.0" range
  = Ret (Some ">=1.2.0") /\
  @Part001.rewrite Release.lib [range] "widen" "1.2.0" range
  = Ret (Some ">=1.0.0") /\
  @RangeTs.rewrite Release.lib "bump" "1.2.0" range = Ret (Some ">=1.2.0") /\
  @RangeTs.rewrite Release.lib "replace" "1.2.0" range
  = Ret (Some ">=1.0.0").
Proof.
  intros range.
  destruct (@C4_lower_bound_rule Release.lib [range] "replace" "1.2.0" range
              eq_refl eq_refl) as (Hreplace & _ & _ & HreplaceR).
  destruct (@C4_lower_bound_rule Release.lib [range] "widen" "1.2.0" range
              eq_refl eq_refl) as (_ & Hwiden & _ & _).
  destruct (@C4_lower_bound_rule Release.lib [range] "bump" "1.2.0" range
              eq_refl eq_refl) as (_ & _ & Hbump & _).
  split; [apply Hreplace; left; reflexivity|].
  split; [apply Hwiden; discriminate|].
  split; [apply Hbump; reflexivity|].
  apply HreplaceR. discriminate.
Defined.

(** In range.ts, under [replace], the clause [>=1.0.0] stays as it is for
    the new version 1.2.0. *)
Lemma C4_counterexample :
  let range := {| operator := ">="; prefix := None; version := "1.0.0" |} in
  Release.lte "1.2.0" (version range) = Ret false /\
  @RangeTs.rewrite Release.lib "replace" "1.2.0" range
  <> Ret (Some (">=" +:+ "1.2.0")).
Proof. split; [reflexivity|]. vm_compute. discriminate. Qed.

(** C6.  For every parseable constraint C and every version V that
    satisfies C, [getNewValue] with strategy [auto], and likewise
    [replace], returns C unchanged.  The call also carries the current
    version, which is a version and so nothing the library parses as a
    constraint; that is all the statement asks of it. *)
Theorem C6_satisfied_unchanged `{Pep440.Lib} (config : NewValueConfig)
    (ranges : list Range) :
  rangeStrategy config = "auto" \/ rangeStrategy config = "replace" ->
  Pep440.parseRange (currentValue config) = Some ranges ->
  Pep440.satisfies (newVersion config) (currentValue config) = Ret true ->
  Pep440.parseRange (currentVersion config) = None ->
  RangeTs.getNewValue config = Ret (Some (currentValue config)) /\
  Part001.getNewValue config = Ret (Some (currentValue config)).
Proof.
  destruct config as [cv rs cver nv].
  cbn [currentValue rangeStrategy currentVersion newVersion].
  intros Hrs Hparse Hsat Hver.
  assert (cv <> cver) as Hne by (intros ->; congruence).
  split.
  - apply (RangeTs_getNewValueF_noop _ cv rs cver nv ranges); assumption.
  - apply (Part001_getNewValueF_noop _ cv rs cver nv ranges); assumption.
Qed.

Lemma C6_satisfied_unchanged_witness :
  (let config := {| currentValue := ">=1.0.0,<2.0.0";
                    rangeStrategy := "auto";
                    currentVersion := "1.5.0";
                    newVersion := "1.7.0" |} in
   @RangeTs.getNewValue Release.lib config = Ret (Some ">=1.0.0,<2.0.0") /\
   @Part001.getNewValue Release.lib config = Ret (Some ">=1.0.0,<2.0.0")) /\
  (let config := {| currentValue := "==1.2.*";
                    rangeStrategy := "replace";
                    currentVersion := "1.2.0";
                    newVersion := "1.2.9" |} in
   @RangeTs.getNewValue Release.lib config = Ret (Some "==1.2.*") /\
   @Part001.getNewValue Release.lib config = Ret (Some "==1.2.*")).
Proof.
  split; intros config.
  - refine (@C6_satisfied_unchanged Release.lib config
              [ {| operator := ">="; prefix := None; version := "1.0.0" |};
                {| operator := "<"; prefix := None; version := "2.0.0" |} ]
              _ _ _ _).
    + left. reflexivity.
    + vm_compute. reflexivity.
    + vm_compute. reflexivity.
    + vm_compute. reflexivity.
  - refine (@C6_satisfied_unchanged Release.lib config
              [ {| operator := "=="; prefix := Some ".*"; version := "1.2" |} ]
              _ _ _ _).
    + right. reflexivity.
    + vm_compute. reflexivity.
    + vm_compute. reflexivity.
    + vm_compute. reflexivity.
Defined.

(** Let [rule] be the rule table of either snapshot, and let the
    rewriting of the clauses raise nothing.  The rewritten sequence lines
    up with the input sequence position by position, each entry being the
    rule's output for the clause at that position; an entry is null exactly
    when no rule classifies the clause; the filter that builds the output
    sequence removes the null entries and nothing else, so the output keeps
    the input order and drops only unclassified clauses; and the entry of an
    [!=] clause is its operator followed by its version text, without the
    [.*] suffix the clause may carry. *)
Lemma rewritten_clauses_in_order `{Pep440.Lib} (ranges all : list Range)
    (rangeStrategy newVersion : string)
    (rule : Range -> outcome (option string))
    (rewritten : list (option string)) :
  rule = RangeTs.rewrite rangeStrategy newVersion \/
  rule = Part001.rewrite all rangeStrategy newVersion ->
  mapM rule ranges = Ret rewritten ->
  length rewritten = length ranges /\
  (forall i range o,
      ranges !! i = Some range -> rewritten !! i = Some o ->
      rule range = Ret o /\
      (o = None <-> classifiable range = false) /\
      (operator range = "!=" ->
       o = Some (operator range +:+ version range))) /\
  filter_Boolean rewritten = omap id rewritten /\
  (forall range,
      range ∈ ranges -> operator range = "!=" ->
      operator range +:+ version range ∈ filter_Boolean rewritten).
Proof.
  intros Hrule Hmap.
  assert (Forall2 (fun range o =>
            rule range = Ret o /\
            (o = None <-> classifiable range = false) /\ o <> Some "" /\
            (operator range = "!=" ->
             o = Some (operator range +:+ version range)))
            ranges rewritten) as Hall.
  { apply mapM_Ret_Forall2 in Hmap.
    eapply Forall2_impl; [exact Hmap|]. cbn beta. intros range o Hrw.
    split; [exact Hrw|]. destruct Hrule as [-> | ->].
    - destruct (RangeTs_rewrite_classified _ _ _ _ Hrw) as [Hnull Hne].
      repeat split; [apply Hnull|apply Hnull|exact Hne|].
      intros Hop. rewrite RangeTs_rewrite_exclusion in Hrw by exact Hop.
      congruence.
    - destruct (Part001_rewrite_classified _ _ _ _ _ Hrw) as [Hnull Hne].
      repeat split; [apply Hnull|apply Hnull|exact Hne|].
      intros Hop. rewrite Part001_rewrite_exclusion in Hrw by exact Hop.
      congruence. }
  assert (filter_Boolean rewritten = omap id rewritten) as Hfilter.
  { apply filter_Boolean_nulls. apply Forall_lookup. intros i o Ho.
    destruct (Forall2_lookup_r _ _ _ _ _ Hall Ho)
      as (range & _ & _ & _ & H3 & _).
    exact H3. }
  split; [symmetry; eapply Forall2_length; exact Hall|].
  split; [|split; [exact Hfilter|]].
  - intros i range o Hi Ho.
    destruct (Forall2_lookup_lr _ _ _ _ _ _ Hall Hi Ho) as (H1 & H2 & _ & H4).
    repeat split; [exact H1|apply H2|apply H2|exact H4].
  - intros range Hin Hop. apply list_elem_of_lookup in Hin.
    destruct Hin as [i Hi].
    destruct (Forall2_lookup_l _ _ _ _ _ Hall Hi) as (o & Ho & _ & _ & _ & H4).
    rewrite Hfilter. apply list_elem_of_omap. exists o. split.
    + apply list_elem_of_lookup. exists i. exact Ho.
    + exact (H4 Hop).
Qed.

Example rewritten_clauses_in_order_example :
  let ranges := [ {| operator := "~="; prefix := None; version := "1.0" |};
                  {| operator := "!="; prefix := None; version := "1.5" |};
                  {| operator := "<"; prefix := None; version := "2" |} ] in
  let rewritten := [Some "~=2.2.0"; Some "!=1.5"; Some "<3"] in
  mapM (@RangeTs.rewrite Release.lib "replace" "2.2.0") ranges
  = Ret rewritten /\
  filter_Boolean rewritten = omap id rewritten /\
  length rewritten = length ranges.
Proof.
  intros ranges rewritten.
  assert (mapM (@RangeTs.rewrite Release.lib "replace" "2.2.0") ranges
          = Ret rewritten) as Hrun by (vm_compute; reflexivity).
  destruct (@rewritten_clauses_in_order Release.lib ranges ranges
              "replace" "2.2.0" _ rewritten (or_introl eq_refl) Hrun)
    as (Hlen & _ & Hfilter & _).
  repeat split; assumption.
Defined.

(** C9, at the input where the code departs from it.  The [!=] rule of
    both snapshots emits [range.operator + range.version] and leaves out
    [range.prefix]: for every library, every strategy and every new
    version, the exclusion [!=V.*] is rewritten to [!=V].  On the
    constraint ['>=1.0,!=1.3.*,<2.0'] with strategy ['replace'] and new
    version 2.1, [getNewValue] returns ['>=1.0,!=1.3,<2.2'] in range.ts and
    ['>=2.1,!=1.3,<2.2'] in src/unnamed/part_001: the clauses are in the
    input order and none is dropped, but the exclusion is not the one that
    was written, and version 1.3.1, which the input excludes, satisfies
    the exclusion that comes out. *)
Theorem C9_exclusion_loses_wildcard :
  (forall (L : Pep440.Lib) (all : list Range)
          (rangeStrategy newVersion version : string),
      let range :=
        {| operator := "!="; prefix := Some ".*"; version := version |} in
      RangeTs.rewrite rangeStrategy newVersion range
      = Ret (Some ("!=" +:+ version)) /\
      Part001.rewrite all rangeStrategy newVersion range
      = Ret (Some ("!=" +:+ version))) /\
  (let config := {| currentValue := ">=1.0,!=1.3.*,<2.0";
                    rangeStrategy := "replace";
                    currentVersion := "1.0";
                    newVersion := "2.1" |} in
   Release.parseRange ">=1.0,!=1.3.*,<2.0"
   = Some [ {| operator := ">="; prefix := None; version := "1.0" |};
            {| operator := "!="; prefix := Some ".*"; version := "1.3" |};
            {| operator := "<"; prefix := None; version := "2.0" |} ] /\
   @RangeTs.getNewValue Release.lib config = Ret (Some ">=1.0,!=1.3,<2.2") /\
   @Part001.getNewValue Release.lib config = Ret (Some ">=2.1,!=1.3,<2.2") /\
   Release.satisfies "1.3.1" "!=1.3.*" = Ret false /\
   Release.satisfies "1.3.1" "!=1.3" = Ret true).
Proof.
  split.
  - intros L all rangeStrategy newVersion version range. split.
    + apply RangeTs_rewrite_exclusion. reflexivity.
    + apply Part001_rewrite_exclusion. reflexivity.
  - repeat split; vm_compute; reflexivity.
Qed.

(** * [isLessThanRange] *)

(** ** The tokenizer *)

Lemma prefix_arbitrary_equality (s : string) :
  String.prefix "===" s = true -> String.prefix "==" s = true.
Proof.
  destruct s as [|c1 [|c2 [|c3 s]]]; cbn [String.prefix]; try discriminate.
  - destruct (ascii_dec "=" c1); discriminate.
  - destruct (ascii_dec "=" c1); [|discriminate].
    destruct (ascii_dec "=" c2); discriminate.
  - destruct (ascii_dec "=" c1); [|discriminate].
    destruct (ascii_dec "=" c2); [|discriminate]. reflexivity.
Qed.

(** The alternative [===] is never the one that matches: [==] comes before
    it and matches wherever [===] does. *)
Lemma match_operator_not_arbitrary (s : string) :
  match_operator s <> Some "===".
Proof.
  unfold match_operator, operator_alternatives. cbn [List.find].
  destruct (String.prefix "~=" s); [discriminate|].
  destruct (String.prefix "==" s) eqn:Heq; [discriminate|].
  destruct (String.prefix "!=" s); [discriminate|].
  destruct (String.prefix "<=" s); [discriminate|].
  destruct (String.prefix ">=" s); [discriminate|].
  destruct (String.prefix "<" s); [discriminate|].
  destruct (String.prefix ">" s); [discriminate|].
  destruct (String.prefix "===" s) eqn:Harb; [|discriminate].
  apply prefix_arbitrary_equality in Harb. congruence.
Qed.

Lemma split_operators_nonempty skip s : split_operators skip s <> [].
Proof.
  revert skip. induction s as [|c r IH]; intros skip; cbn [split_operators];
    [discriminate|].
  destruct skip as [|skip]; [|apply IH].
  destruct (match_operator (String c r)); [discriminate|].
  specialize (IH 0). destruct (split_operators 0 r); [done|discriminate].
Qed.

(** Every operator the split yields is a match of the regular
    expression. *)
Lemma split_operators_first skip s op :
  split_operators skip s !! 1 = Some op ->
  exists s', match_operator s' = Some op.
Proof.
  revert skip. induction s as [|c r IH]; intros skip; cbn [split_operators];
    [discriminate|].
  destruct skip as [|skip]; [|apply IH].
  destruct (match_operator (String c r)) as [op'|] eqn:Hm.
  - cbn. intros [= <-]. exists (String c r). exact Hm.
  - pose proof (split_operators_nonempty 0 r) as Hne.
    destruct (split_operators 0 r) as [|piece pieces] eqn:Hs; [done|].
    cbn. intros Hop. apply (IH 0). rewrite Hs. exact Hop.
Qed.

Lemma split_operators_odd skip s :
  Nat.odd (length (split_operators skip s)) = true.
Proof.
  revert skip. induction s as [|c r IH]; intros skip; cbn [split_operators];
    [reflexivity|].
  destruct skip as [|skip]; [|apply IH].
  destruct (match_operator (String c r)).
  - cbn [length]. rewrite Nat.odd_succ_succ. apply IH.
  - specialize (IH 0). destruct (split_operators 0 r); [discriminate|exact IH].
Qed.

(** No clause is ever tokenized with the operator [===]. *)
Lemma tokens_never_arbitrary_equality (x : string) :
  tokens x !! 0 <> Some "===".
Proof.
  unfold tokens, slice1. intros Hop.
  assert (split_operators 0 (strip_spaces x) !! 1 = Some "===") as H1.
  { destruct (split_operators 0 (strip_spaces x)); [discriminate|exact Hop]. }
  apply split_operators_first in H1. destruct H1 as [s' Hs'].
  exact (match_operator_not_arbitrary s' Hs').
Qed.

(** A clause with an operator has a version text. *)
Lemma tokens_version_defined (x op : string) :
  tokens x !! 0 = Some op -> is_Some (tokens x !! 1).
Proof.
  unfold tokens, slice1.
  pose proof (split_operators_odd 0 (strip_spaces x)) as Hodd.
  destruct (split_operators 0 (strip_spaces x)) as [|p0 [|p1 [|p2 l]]];
    cbn in *; try discriminate.
  intros _. eexists. reflexivity.
Qed.

(** A clause written with [===] is tokenized with the operator [==]. *)
Lemma tokens_arbitrary_equality (v : string) :
  tokens ("===" +:+ v) !! 0 = Some "==".
Proof.
  unfold tokens, slice1.
  change (strip_spaces ("===" +:+ v)) with ("===" +:+ strip_spaces v).
  reflexivity.
Qed.

Section LessThanRange.

Context `{L : Pep440.Lib}.
Variable input : string.

(** The scan of the clauses: the flag ends up false as soon as one clause
    is not permissive, and each clause contributes its verdict. *)
Lemma check_verdict invertResult clause :
  RangeTs.check input invertResult clause
  = res ← clause_verdict input clause;
    Ret (invertResult && permissive clause, res).
Proof.
  unfold RangeTs.check, clause_verdict, permissive.
  destruct (includes_opt ["!="; "<="; "<"] (clause !! 0)).
  - run_bind. rewrite andb_true_r. reflexivity.
  - rewrite andb_false_r.
    destruct (includes_opt ["~="; "=="; ">="; "==="] (clause !! 0)).
    + destruct (clause !! 1); [|reflexivity]. reflexivity.
    + destruct (includes_opt [">"] (clause !! 0)); [|reflexivity].
      destruct (clause !! 1); reflexivity.
Qed.

Lemma map_check_verdicts invertResult clauses :
  map_state_exn (RangeTs.check input) invertResult clauses
  = verdicts ← mapM (clause_verdict input) clauses;
    Ret (invertResult && forallb permissive clauses, verdicts).
Proof.
  revert invertResult.
  induction clauses as [|clause clauses IH]; intros invertResult;
    cbn [map_state_exn mapM forallb]; run_bind.
  - rewrite andb_true_r. reflexivity.
  - rewrite check_verdict.
    destruct (clause_verdict input clause) as [res|]; run_bind;
      [|reflexivity].
    rewrite IH.
    destruct (mapM (clause_verdict input) clauses) as [verdicts|]; run_bind;
      [|reflexivity].
    rewrite andb_assoc. reflexivity.
Qed.

(** [results.every((res) => res === true)] *)
Lemma every_true (results : list bool) :
  forallb (fun res => Bool.eqb res true) results
  = forallb (fun res => res) results.
Proof.
  induction results as [|[] results IH]; cbn; [reflexivity|exact IH|].
  reflexivity.
Qed.

(** [isLessThanRange] in the words of its description: the conjunction of
    the clause verdicts, negated when every clause is permissive; false
    when a comparison raises. *)
Lemma isLessThanRange_verdicts range :
  RangeTs.isLessThanRange input range
  = let clauses := map tokens (split_comma range) in
    match mapM (clause_verdict input) clauses with
    | Ret verdicts =>
        let result := forallb (fun res => res) verdicts in
        Ret (if forallb permissive clauses then negb result else result)
    | Throw => Ret false
    end.
Proof.
  unfold RangeTs.isLessThanRange, RangeTs.isLessThanRange_body.
  rewrite map_check_verdicts. cbn zeta.
  destruct (mapM (clause_verdict input) _) as [verdicts|]; run_bind;
    [|reflexivity].
  cbn [try_catch andb]. rewrite every_true. reflexivity.
Qed.

Lemma mapM_throw {A B} (f : A -> outcome B) (l : list A) (a : A) :
  a ∈ l -> f a = Throw -> mapM f l = Throw.
Proof.
  intros Hin Ha. induction l as [|b l IH]; [inversion Hin|].
  cbn [mapM]. apply elem_of_cons in Hin. destruct Hin as [<-|Hin].
  - rewrite Ha. reflexivity.
  - destruct (f b); run_bind; [|reflexivity].
    rewrite (IH Hin). reflexivity.
Qed.

End LessThanRange.

(** ** Claims about [isLessThanRange] *)

(** C7, at the input where the code departs from it.  For every library,
    the clause [===1.0] is compared as the operator [==] against the
    version text [=1.0]: the alternative [===] of the tokenizer's regular
    expression stands after [==] and never matches.  With version 0.5,
    which is strictly less than 1.0, the comparison against [=1.0] raises
    and [isLessThanRange] answers false. *)
Theorem C7_arbitrary_equality_clause :
  (forall (L : Pep440.Lib) (input : string),
      RangeTs.isLessThanRange input "===1.0"
      = try_catch (Pep440.lt input "=1.0") false) /\
  tokens "===1.0" = ["=="; "=1.0"] /\
  Release.lt "0.5" "1.0" = Ret true /\
  Release.lt "0.5" "=1.0" = Throw /\
  @RangeTs.isLessThanRange Release.lib "0.5" "===1.0" = Ret false.
Proof.
  split; [|repeat split].
  intros L input.
  unfold RangeTs.isLessThanRange, RangeTs.isLessThanRange_body.
  change (map tokens (split_comma "===1.0")) with [["=="; "=1.0"]].
  cbn [map_state_exn]. unfold RangeTs.check.
  cbn [lookup list_lookup includes_opt includes existsb String.eqb Ascii.eqb
       Bool.eqb orb].
  destruct (Pep440.lt input "=1.0") as [[|]|]; reflexivity.
Qed.

(** C8.  [isLessThanRange] always returns a boolean; when its [try] block
    raises, and so when the comparison of any clause raises, the boolean is
    false; and it is false for the empty constraint. *)
Theorem C8_never_raises `{Pep440.Lib} (input range : string) :
  (exists b, RangeTs.isLessThanRange input range = Ret b) /\
  (RangeTs.isLessThanRange_body input range = Throw ->
   RangeTs.isLessThanRange input range = Ret false) /\
  (forall x op version,
      x ∈ split_comma range ->
      tokens x !! 0 = Some op -> tokens x !! 1 = Some version ->
      (op ∈ ["~="; "=="; ">="; "==="] /\ Pep440.lt input version = Throw) \/
      (op = ">" /\ Pep440.lte input version = Throw) ->
      RangeTs.isLessThanRange input range = Ret false) /\
  RangeTs.isLessThanRange input "" = Ret false.
Proof.
  split; [|split; [|split]].
  - unfold RangeTs.isLessThanRange.
    destruct (RangeTs.isLessThanRange_body input range) as [b|];
      eexists; reflexivity.
  - unfold RangeTs.isLessThanRange. intros ->. reflexivity.
  - intros x op version Hx Hop Hversion Hraise.
    rewrite isLessThanRange_verdicts. cbn zeta.
    rewrite (mapM_throw (clause_verdict input) _ (tokens x)); [reflexivity| |].
    + apply list_elem_of_fmap. exists x. split; [reflexivity|exact Hx].
    + unfold clause_verdict. rewrite Hop, Hversion.
      destruct Hraise as [[Hin Hlt]|[-> Hlte]].
      * rewrite !elem_of_cons in Hin.
        destruct Hin as [->|[->|[->|[->|Hin]]]]; [..|inversion Hin];
          exact Hlt.
      * exact Hlte.
  - reflexivity.
Qed.

Lemma C8_never_raises_witness :
  Release.lt "0.5" "abc" = Throw /\
  @RangeTs.isLessThanRange_body Release.lib "0.5" "==abc" = Throw /\
  @RangeTs.isLessThanRange Release.lib "0.5" "==abc" = Ret false.
Proof.
  assert (Release.lt "0.5" "abc" = Throw) as Hlt by reflexivity.
  assert (@RangeTs.isLessThanRange_body Release.lib "0.5" "==abc" = Throw)
    as Hbody by reflexivity.
  destruct (@C8_never_raises Release.lib "0.5" "==abc")
    as (_ & Hcatch & Hclause & _).
  split; [exact Hlt|]. split; [exact Hbody|].
  pose proof (Hcatch Hbody) as Hfalse.
  apply (Hclause "==abc" "==" "abc").
  - change (split_comma "==abc") with ["==abc"]. apply list_elem_of_here.
  - reflexivity.
  - reflexivity.
  - left. split; [|exact Hlt]. apply list_elem_of_further, list_elem_of_here.
Defined.

(** A constraint of white space only is answered false as well. *)
Example isLessThanRange_blank `{Pep440.Lib} (input : string) :
  RangeTs.isLessThanRange input "  " = Ret false.
Proof. reflexivity. Qed.

(** The scenarios of the lower-bound check *)
Example isLessThanRange_scenarios :
  @RangeTs.isLessThanRange Release.lib "0.9.0" ">=1.0.0" = Ret true /\
  @RangeTs.isLessThanRange Release.lib "1.5.0" ">=1.0.0" = Ret false.
Proof. split; reflexivity. Qed.

(** * Further properties *)

(** ** [isLessThanRange]: white space, order, degenerate clauses *)

Lemma split_char_nonempty sep s : split_char sep s <> [].
Proof.
  induction s as [|c r IH]; cbn [split_char]; [discriminate|].
  destruct (split_char sep r); [done|].
  destruct (Ascii.eqb c sep); discriminate.
Qed.

Lemma strip_spaces_idem s : strip_spaces (strip_spaces s) = strip_spaces s.
Proof.
  induction s as [|c r IH]; [reflexivity|]. cbn [strip_spaces].
  destruct (is_space c) eqn:Hc; [exact IH|].
  cbn [strip_spaces]. rewrite Hc, IH. reflexivity.
Qed.

Lemma split_comma_strip_spaces range :
  map strip_spaces (split_comma range) = split_comma (strip_spaces range).
Proof.
  unfold split_comma. induction range as [|c r IH]; [reflexivity|].
  cbn [split_char strip_spaces].
  pose proof (split_char_nonempty ","%char r) as Hne.
  destruct (split_char ","%char r) as [|piece pieces] eqn:Hs; [done|].
  destruct (Ascii.eqb_spec c ","%char) as [->|Hc].
  - cbn [is_space]. change (is_space ","%char) with false. cbn iota.
    cbn [split_char]. rewrite <- IH. reflexivity.
  - destruct (is_space c) eqn:Hsp.
    + rewrite <- IH. cbn [map strip_spaces]. rewrite Hsp. reflexivity.
    + cbn [split_char]. rewrite <- IH. cbn [map strip_spaces]. rewrite Hsp.
      destruct (Ascii.eqb_spec c ","%char); [done|]. reflexivity.
Qed.

Lemma tokens_strip_spaces x : tokens (strip_spaces x) = tokens x.
Proof. unfold tokens. rewrite strip_spaces_idem. reflexivity. Qed.

Lemma clauses_strip_spaces range :
  map tokens (split_comma (strip_spaces range))
  = map tokens (split_comma range).
Proof.
  rewrite <- split_comma_strip_spaces, map_map.
  apply map_ext. intros x. apply tokens_strip_spaces.
Qed.

Section LessThanRangeMore.

Context `{L : Pep440.Lib}.
Variable input : string.

Lemma isLessThanRange_strip_spaces (range : string) :
  RangeTs.isLessThanRange input (strip_spaces range)
  = RangeTs.isLessThanRange input range.
Proof.
  unfold RangeTs.isLessThanRange, RangeTs.isLessThanRange_body.
  rewrite clauses_strip_spaces. reflexivity.
Qed.

(** White space anywhere in the constraint does not change the answer:
    two constraints that differ in white space only get the same one. *)
Theorem isLessThanRange_ignores_spaces (range1 range2 : string) :
  strip_spaces range1 = strip_spaces range2 ->
  RangeTs.isLessThanRange input range1 = RangeTs.isLessThanRange input range2.
Proof.
  intros Hsame.
  rewrite <- (isLessThanRange_strip_spaces range1), Hsame.
  apply isLessThanRange_strip_spaces.
Qed.

Lemma verdicts_permutation (f : list string -> outcome bool)
    (l1 l2 : list (list string)) :
  l1 ≡ₚ l2 ->
  match mapM f l1, mapM f l2 with
  | Ret v1, Ret v2 =>
      forallb (fun res => res) v1 = forallb (fun res => res) v2
  | Throw, Throw => True
  | _, _ => False
  end.
Proof.
  induction 1 as [|x l1 l2 _ IH|x y l|l1 l2 l3 _ IH1 _ IH2].
  - reflexivity.
  - cbn [mapM]. destruct (f x) as [b|]; run_bind; [|exact I].
    destruct (mapM f l1), (mapM f l2); run_bind; try done.
    cbn [forallb]. rewrite IH. reflexivity.
  - cbn [mapM].
    destruct (f x) as [[]|], (f y) as [[]|]; run_bind; try exact I;
      destruct (mapM f l); run_bind; try exact I; reflexivity.
  - destruct (mapM f l1), (mapM f l2), (mapM f l3); try done. congruence.
Qed.

Lemma permissive_permutation (l1 l2 : list (list string)) :
  l1 ≡ₚ l2 -> forallb permissive l1 = forallb permissive l2.
Proof.
  induction 1 as [|x l1 l2 _ IH|x y l|l1 l2 l3 _ IH1 _ IH2]; cbn [forallb].
  - reflexivity.
  - rewrite IH. reflexivity.
  - destruct (permissive x), (permissive y); reflexivity.
  - congruence.
Qed.

(** The order of the comma-separated clauses does not change the answer. *)
Theorem isLessThanRange_clause_order (range1 range2 : string) :
  split_comma range1 ≡ₚ split_comma range2 ->
  RangeTs.isLessThanRange input range1 = RangeTs.isLessThanRange input range2.
Proof.
  intros Hperm. rewrite !isLessThanRange_verdicts. cbn zeta.
  assert (map tokens (split_comma range1)
          ≡ₚ map tokens (split_comma range2))
    as Hclauses by (apply fmap_Permutation; exact Hperm).
  rewrite (permissive_permutation _ _ Hclauses).
  pose proof (verdicts_permutation (clause_verdict input) _ _ Hclauses) as Hv.
  destruct (mapM _ (map tokens (split_comma range1))),
           (mapM _ (map tokens (split_comma range2))); try done.
  rewrite Hv. reflexivity.
Qed.

Lemma mapM_permissive (clauses : list (list string)) :
  forallb permissive clauses = true ->
  mapM (clause_verdict input) clauses = Ret (map (fun _ => true) clauses).
Proof.
  induction clauses as [|clause clauses IH]; cbn [forallb mapM map];
    [reflexivity|].
  intros Hall. apply andb_true_iff in Hall. destruct Hall as [Hc Hall].
  unfold permissive in Hc.
  assert (clause_verdict input clause = Ret true) as ->
    by (unfold clause_verdict; cbn zeta; rewrite Hc; reflexivity).
  run_bind.
  rewrite (IH Hall). reflexivity.
Qed.

(** A constraint whose clauses all use [!=], [<=] or [<] places no lower
    bound: no version is below it, whatever the library's comparisons
    answer or raise. *)
Theorem isLessThanRange_no_lower_bound (range : string) :
  forallb permissive (map tokens (split_comma range)) = true ->
  RangeTs.isLessThanRange input range = Ret false.
Proof.
  intros Hall. rewrite isLessThanRange_verdicts. cbn zeta.
  rewrite (mapM_permissive _ Hall), Hall.
  assert (forall (l : list (list string)),
             forallb (fun res => res) (map (fun _ => true) l) = true) as Htrue
    by (induction l; [reflexivity|assumption]).
  rewrite Htrue. reflexivity.
Qed.

Lemma mapM_verdict_false (clauses : list (list string)) clause verdicts :
  clause ∈ clauses -> clause !! 0 = None ->
  mapM (clause_verdict input) clauses = Ret verdicts ->
  forallb (fun res => res) verdicts = false.
Proof.
  intros Hin Hop. revert verdicts.
  induction clauses as [|c clauses IH]; intros verdicts; [inversion Hin|].
  cbn [mapM].
  destruct (clause_verdict input c) as [res|] eqn:Hres; run_bind;
    [|discriminate].
  destruct (mapM (clause_verdict input) clauses) as [rest|] eqn:Hrest;
    run_bind; [|discriminate].
  intros [= <-]. cbn [forallb].
  apply elem_of_cons in Hin. destruct Hin as [<-|Hin].
  - unfold clause_verdict in Hres. rewrite Hop in Hres.
    cbn in Hres. injection Hres as <-. reflexivity.
  - rewrite (IH Hin rest eq_refl). apply andb_false_r.
Qed.

Lemma split_comma_trailing range :
  split_comma (range +:+ ",") = split_comma range ++ [""].
Proof.
  unfold split_comma. induction range as [|c r IH]; [reflexivity|].
  change (String c r +:+ ",") with (String c (r +:+ ",")).
  cbn [split_char]. rewrite IH.
  pose proof (split_char_nonempty ","%char r) as Hne.
  destruct (split_char ","%char r); [done|].
  cbn [app]. destruct (Ascii.eqb c ","%char); reflexivity.
Qed.

(** A piece of the constraint in which no operator is found (an empty
    piece, a bare version) makes the answer false, whatever the other
    clauses and the version are; so does a trailing comma. *)
Theorem isLessThanRange_clause_without_operator (range : string) :
  (forall x, x ∈ split_comma range -> tokens x !! 0 = None ->
             RangeTs.isLessThanRange input range = Ret false) /\
  RangeTs.isLessThanRange input (range +:+ ",") = Ret false.
Proof.
  assert (forall r x, x ∈ split_comma r -> tokens x !! 0 = None ->
                      RangeTs.isLessThanRange input r = Ret false) as Hgen.
  { intros r x Hx Hop. rewrite isLessThanRange_verdicts. cbn zeta.
    assert (tokens x ∈ map tokens (split_comma r)) as Hin
      by (apply list_elem_of_fmap; exists x; split; [reflexivity|exact Hx]).
    assert (forallb permissive (map tokens (split_comma r)) = false) as Hperm.
    { apply not_true_is_false. intros Hall.
      rewrite forallb_forall in Hall.
      apply list_elem_of_In in Hin. specialize (Hall _ Hin).
      unfold permissive in Hall. rewrite Hop in Hall. discriminate. }
    rewrite Hperm.
    destruct (mapM _ _) as [verdicts|] eqn:Hm; [|reflexivity].
    rewrite (mapM_verdict_false _ _ _ Hin Hop Hm). reflexivity. }
  split; [apply Hgen|].
  apply (Hgen _ ""); [|reflexivity].
  rewrite split_comma_trailing. apply elem_of_app. right.
  apply list_elem_of_here.
Qed.

End LessThanRangeMore.

Lemma isLessThanRange_ignores_spaces_witness :
  @RangeTs.isLessThanRange Release.lib "0.9" " >= 1.0 , < 2.0"
  = @RangeTs.isLessThanRange Release.lib "0.9" ">=1.0,<2.0".
Proof.
  apply (@isLessThanRange_ignores_spaces Release.lib). reflexivity.
Defined.

Lemma isLessThanRange_clause_order_witness :
  @RangeTs.isLessThanRange Release.lib "0.5" ">=1.0,<2.0"
  = @RangeTs.isLessThanRange Release.lib "0.5" "<2.0,>=1.0".
Proof.
  apply (@isLessThanRange_clause_order Release.lib).
  change (split_comma ">=1.0,<2.0") with [">=1.0"; "<2.0"].
  change (split_comma "<2.0,>=1.0") with ["<2.0"; ">=1.0"].
  apply Permutation_swap.
Defined.

Lemma isLessThanRange_no_lower_bound_witness :
  @RangeTs.isLessThanRange Release.lib "0.1" "<2.0, !=1.5" = Ret false.
Proof.
  apply (@isLessThanRange_no_lower_bound Release.lib). reflexivity.
Defined.

Lemma isLessThanRange_clause_without_operator_witness :
  @RangeTs.isLessThanRange Release.lib "0.1" ">=0.5,1.0" = Ret false.
Proof.
  apply (proj1 (@isLessThanRange_clause_without_operator Release.lib
                  "0.1" ">=0.5,1.0") "1.0").
  - change (split_comma ">=0.5,1.0") with [">=0.5"; "1.0"].
    apply list_elem_of_further, list_elem_of_here.
  - reflexivity.
Defined.

(** ** The tokenizer on a well-formed clause *)

Lemma plain_char_spec c :
  plain_char c = true ->
  is_space c = false /\ c <> ","%char /\ c <> "~"%char /\ c <> "="%char /\
  c <> "!"%char /\ c <> "<"%char /\ c <> ">"%char.
Proof.
  unfold plain_char. intros Hc. apply andb_true_iff in Hc.
  destruct Hc as [Hsp Hop]. apply negb_true_iff in Hsp, Hop.
  split; [exact Hsp|].
  repeat split; intros ->; vm_compute in Hop; discriminate Hop.
Qed.

Lemma strip_spaces_plain s : plain s = true -> strip_spaces s = s.
Proof.
  induction s as [|c r IH]; [reflexivity|]. cbn [plain strip_spaces].
  intros Hp. apply andb_true_iff in Hp. destruct Hp as [Hc Hr].
  destruct (plain_char_spec c Hc) as [-> _]. rewrite (IH Hr). reflexivity.
Qed.

Lemma strip_spaces_app a b :
  strip_spaces (a +:+ b) = strip_spaces a +:+ strip_spaces b.
Proof.
  induction a as [|c r IH]; [reflexivity|].
  change (String c r +:+ b) with (String c (r +:+ b)).
  cbn [strip_spaces]. rewrite IH. destruct (is_space c); reflexivity.
Qed.

Ltac by_ascii :=
  repeat (cbn [List.find String.prefix];
          match goal with
          | |- context [ascii_dec ?a ?b] =>
              destruct (ascii_dec a b) as [?|?];
              try discriminate; try congruence
          end);
  cbn [List.find String.prefix].

Lemma match_operator_plain c r :
  plain_char c = true -> match_operator (String c r) = None.
Proof.
  intros Hc. destruct (plain_char_spec c Hc) as (_ & _ & ? & ? & ? & ? & ?).
  unfold match_operator, operator_alternatives.
  cbn [List.find String.prefix]. by_ascii; reflexivity.
Qed.

Lemma split_operators_plain v : plain v = true -> split_operators 0 v = [v].
Proof.
  induction v as [|c r IH]; [reflexivity|]. cbn [plain].
  intros Hp. apply andb_true_iff in Hp. destruct Hp as [Hc Hr].
  cbn [split_operators]. rewrite (match_operator_plain c r Hc), (IH Hr).
  reflexivity.
Qed.

Lemma split_operators_app_plain pre s :
  plain pre = true ->
  split_operators 0 (pre +:+ s)
  = match split_operators 0 s with
    | piece :: pieces => (pre +:+ piece) :: pieces
    | [] => []
    end.
Proof.
  induction pre as [|c r IH].
  - intros _. change ("" +:+ s) with s.
    destruct (split_operators 0 s); reflexivity.
  - cbn [plain]. intros Hp. apply andb_true_iff in Hp.
    destruct Hp as [Hc Hr].
    change (String c r +:+ s) with (String c (r +:+ s)).
    cbn [split_operators].
    rewrite (match_operator_plain c _ Hc), (IH Hr).
    destruct (split_operators 0 s); reflexivity.
Qed.

Lemma append_String c r s : String c r +:+ s = String c (r +:+ s).
Proof. reflexivity. Qed.

Lemma append_empty s : "" +:+ s = s.
Proof. reflexivity. Qed.

Lemma split_operators_skip a rest :
  split_operators (String.length a) (a +:+ rest) = split_operators 0 rest.
Proof.
  induction a as [|c r IH]; [reflexivity|].
  rewrite append_String. cbn [String.length split_operators]. exact IH.
Qed.

Lemma split_operators_at c a rest :
  match_operator (String c a +:+ rest) = Some (String c a) ->
  split_operators 0 (String c a +:+ rest)
  = "" :: String c a :: split_operators 0 rest.
Proof.
  intros Hm. rewrite append_String in *. cbn [split_operators].
  rewrite Hm. cbn [String.length Nat.sub]. rewrite Nat.sub_0_r.
  rewrite split_operators_skip. reflexivity.
Qed.

Lemma match_operator_clause op v :
  clause_operator op -> plain v = true ->
  match_operator (op +:+ v) = Some op.
Proof.
  unfold clause_operator. rewrite !elem_of_cons. intros Hop Hv.
  assert (match v with
          | String c _ => plain_char c = true
          | EmptyString => True
          end) as Hc.
  { destruct v as [|c r]; [exact I|]. cbn [plain] in Hv.
    apply andb_true_iff in Hv. exact (proj1 Hv). }
  destruct Hop as [->|[->|[->|[->|[->|[->|[->|Hop]]]]]]]; [..|inversion Hop];
    rewrite !append_String, append_empty;
    unfold match_operator, operator_alternatives;
    destruct v as [|c r];
    try (destruct (plain_char_spec c Hc) as (_ & _ & ? & ? & ? & ? & ?));
    by_ascii; reflexivity.
Qed.

Lemma split_operators_clause op v :
  clause_operator op -> plain v = true ->
  split_operators 0 (op +:+ v) = [""; op; v].
Proof.
  intros Hop Hv. pose proof (match_operator_clause op v Hop Hv) as Hm.
  destruct op as [|c a].
  - unfold clause_operator in Hop. rewrite !elem_of_cons in Hop.
    destruct Hop as [?|[?|[?|[?|[?|[?|[?|Hop]]]]]]]; try discriminate.
    inversion Hop.
  - rewrite (split_operators_at c a v Hm), (split_operators_plain v Hv).
    reflexivity.
Qed.

Lemma tokens_of_clause (pre op v : string) :
  plain pre = true -> clause_operator op -> plain v = true ->
  tokens (pre +:+ op +:+ v) = [op; v].
Proof.
  intros Hpre Hop Hv. unfold tokens, slice1.
  rewrite !strip_spaces_app, (strip_spaces_plain pre Hpre),
    (strip_spaces_plain v Hv).
  assert (strip_spaces op = op) as ->.
  { unfold clause_operator in Hop. rewrite !elem_of_cons in Hop.
    destruct Hop as [->|[->|[->|[->|[->|[->|[->|Hop]]]]]]];
      [..|inversion Hop]; reflexivity. }
  rewrite (split_operators_app_plain pre _ Hpre),
    (split_operators_clause op v Hop Hv).
  reflexivity.
Qed.

(** A clause written as text without white space, comma or operator
    characters, then one of the operators [~=], [==], [!=], [<=], [>=],
    [<], [>], then a version text of the same plain kind, is tokenized into
    exactly that operator and that version text; the text before the
    operator is dropped. *)
Theorem tokens_clause (pre op v : string) :
  plain pre = true -> clause_operator op -> plain v = true ->
  tokens (pre +:+ op +:+ v) = [op; v].
Proof. apply tokens_of_clause. Qed.

Lemma tokens_clause_witness : tokens "foo>=1.0.0" = [">="; "1.0.0"].
Proof.
  apply (tokens_clause "foo" ">=" "1.0.0"); [reflexivity| |reflexivity].
  unfold clause_operator. do 4 apply list_elem_of_further.
  apply list_elem_of_here.
Defined.

Lemma split_comma_plain v : plain v = true -> split_comma v = [v].
Proof.
  unfold split_comma. induction v as [|c r IH]; [reflexivity|]. cbn [plain].
  intros Hp. apply andb_true_iff in Hp. destruct Hp as [Hc Hr].
  destruct (plain_char_spec c Hc) as (_ & Hcomma & _).
  cbn [split_char]. rewrite (IH Hr).
  destruct (Ascii.eqb_spec c ","%char); [done|reflexivity].
Qed.

Lemma split_comma_clause op v :
  clause_operator op -> plain v = true -> split_comma (op +:+ v) = [op +:+ v].
Proof.
  unfold clause_operator. rewrite !elem_of_cons. intros Hop Hv.
  pose proof (split_comma_plain v Hv) as Hsplit. unfold split_comma in *.
  destruct Hop as [->|[->|[->|[->|[->|[->|[->|Hop]]]]]]]; [..|inversion Hop];
    rewrite !append_String, append_empty; cbn [split_char];
    rewrite Hsplit; reflexivity.
Qed.

(** A constraint that is one well-formed clause, white space apart: with
    [!=], [<=] or [<] the answer is false; with [>] it is whether the
    version is at or below the clause's; with [~=], [==] or [>=] it is
    whether the version is strictly below the clause's; a comparison that
    raises gives false. *)
Theorem isLessThanRange_single_clause `{Pep440.Lib}
    (input range op v : string) :
  strip_spaces range = op +:+ v -> clause_operator op -> plain v = true ->
  RangeTs.isLessThanRange input range
  = if includes ["!="; "<="; "<"] op then Ret false
    else if String.eqb op ">" then try_catch (Pep440.lte input v) false
    else try_catch (Pep440.lt input v) false.
Proof.
  intros Hrange Hop Hv.
  rewrite <- isLessThanRange_strip_spaces, Hrange.
  unfold RangeTs.isLessThanRange, RangeTs.isLessThanRange_body.
  rewrite (split_comma_clause op v Hop Hv). cbn [map].
  pose proof (tokens_of_clause "" op v eq_refl Hop Hv) as Htok.
  rewrite append_empty in Htok. rewrite Htok.
  cbn [map_state_exn]. unfold RangeTs.check.
  cbn [lookup list_lookup includes_opt].
  unfold clause_operator in Hop. rewrite !elem_of_cons in Hop.
  destruct Hop as [->|[->|[->|[->|[->|[->|[->|Hop]]]]]]]; [..|inversion Hop];
    cbn [includes existsb String.eqb Ascii.eqb Bool.eqb orb];
    try reflexivity;
    try (destruct (Pep440.lt input v) as [[|]|]; reflexivity);
    destruct (Pep440.lte input v) as [[|]|]; reflexivity.
Qed.

Lemma isLessThanRange_single_clause_witness :
  @RangeTs.isLessThanRange Release.lib "0.9.0" " >= 1.0.0 "
  = try_catch (Release.lt "0.9.0" "1.0.0") false.
Proof.
  apply (@isLessThanRange_single_clause Release.lib
           "0.9.0" " >= 1.0.0 " ">=" "1.0.0"); [reflexivity| |reflexivity].
  unfold clause_operator. do 4 apply list_elem_of_further.
  apply list_elem_of_here.
Defined.

(** ** [getFutureVersion]: targets that extend the base, and step 0 *)

Lemma add_at_zero i (l : list N) : add_at i 0 l = l.
Proof.
  unfold add_at. destruct (i <? 0)%Z; [reflexivity|].
  apply list_eq. intros j. rewrite list_lookup_alter.
  case_decide; [subst|reflexivity].
  destruct (l !! Z.to_nat i) as [x|]; [|reflexivity].
  cbn. rewrite N.add_0_r. reflexivity.
Qed.

Lemma padded_same (base to : list N) :
  (forall j, j < length base -> component to j = component base j) ->
  padded to 0 (length base) = base.
Proof.
  intros Hsame. apply list_eq_component; [apply length_padded|].
  rewrite length_padded. intros j Hj.
  rewrite component_padded by exact Hj. apply Hsame. exact Hj.
Qed.

(** When the target has the base's components at all the base's positions
    (the new version is the bound itself, or extends it: bound 1.2, new
    version 1.2.5), and the base's components plus the step stay within
    the exact range of number arithmetic, both [getFutureVersion] return
    the base with [step] added to its last component. *)
Theorem futureRelease_target_extends_base (base to : list N) (step : N) :
  (forall j, j < length base -> component to j = component base j) ->
  within_exact_range base step ->
  RangeTs.futureRelease base to step
  = add_at (Z.of_nat (length base) - 1) step base /\
  Part001.futureRelease base to step
  = add_at (Z.of_nat (length base) - 1) step base.
Proof.
  intros Hsame _.
  assert (first_advance to 0 base = None) as Hnone.
  { apply no_advance_first. intros j Hj. rewrite (Hsame j Hj). lia. }
  rewrite RangeTs_futureRelease_closed, Part001_futureRelease_closed, Hnone.
  rewrite (padded_same base to Hsame). split; reflexivity.
Qed.

Lemma futureRelease_target_extends_base_witness :
  RangeTs.futureRelease [1; 2]%N [1; 2; 5]%N 1 = [1; 3]%N /\
  Part001.futureRelease [1; 2]%N [1; 2; 5]%N 1 = [1; 3]%N.
Proof.
  apply (futureRelease_target_extends_base [1; 2]%N [1; 2; 5]%N 1).
  - intros j Hj. simpl in Hj.
    destruct j as [|[|j]]; [reflexivity|reflexivity|lia].
  - split; [|repeat constructor]; vm_compute; discriminate.
Defined.

(** With step 0, the step of the wildcard rule: the [getFutureVersion] of
    range.ts returns the target cut (or padded with zeros) to the base's
    length whenever at most one position follows the advance point, so
    always for a base of one or two components; the one of part_001 does
    so only when the advance point is absent or last. *)
Theorem futureRelease_step_zero (base to : list N) :
  ((forall i, advance_point base to i -> length base <= i + 2) ->
   RangeTs.futureRelease base to 0 = padded to 0 (length base)) /\
  ((forall i, advance_point base to i -> length base = i + 1) ->
   Part001.futureRelease base to 0 = padded to 0 (length base)).
Proof.
  split; intros Hadv.
  - rewrite RangeTs_futureRelease_closed.
    destruct (first_advance to 0 base) as [i|] eqn:Hf;
      [|apply add_at_zero].
    pose proof (proj2 (advance_point_first to base i) Hf) as Hi.
    specialize (Hadv i Hi). destruct Hi as [Hlt _].
    repeat case_decide; try apply add_at_zero. lia.
  - rewrite Part001_futureRelease_closed.
    destruct (first_advance to 0 base) as [i|] eqn:Hf;
      [|apply add_at_zero].
    pose proof (proj2 (advance_point_first to base i) Hf) as Hi.
    specialize (Hadv i Hi).
    replace (length base - i - 1) with 0 by lia.
    rewrite N.add_0_r. cbn [replicate]. rewrite Hadv.
    replace (i + 1) with (S i) by lia.
    rewrite (padded_snoc to 0 i). reflexivity.
Qed.

Lemma futureRelease_step_zero_witness :
  RangeTs.futureRelease [3; 2]%N [4; 1; 1]%N 0 = [4; 1]%N /\
  Part001.futureRelease [3; 2]%N [3; 4; 1]%N 0 = [3; 4]%N.
Proof.
  split.
  - apply (proj1 (futureRelease_step_zero [3; 2]%N [4; 1; 1]%N)).
    intros i (Hi & _). simpl in *. lia.
  - apply (proj2 (futureRelease_step_zero [3; 2]%N [3; 4; 1]%N)).
    intros i (Hi & Hlt & Hbefore). simpl in Hi.
    destruct i as [|[|i]]; [|reflexivity|lia].
    vm_compute in Hlt. discriminate.
Defined.

(** In part_001 the wildcard clause [==3.2.*] with new version 4.1.1 is
    rewritten to [==4.0.*], which the new version does not match: the
    result is null.  In range.ts it is rewritten to [==4.1.*]. *)
Example wildcard_major_update :
  let config := {| currentValue := "==3.2.*"; rangeStrategy := "replace";
                   currentVersion := "3.2.0"; newVersion := "4.1.1" |} in
  @RangeTs.getNewValue Release.lib config = Ret (Some "==4.1.*") /\
  @Part001.getNewValue Release.lib config = Ret None.
Proof. split; reflexivity. Qed.

(** ** The replace precision of src/unnamed/part_001 *)

Lemma findIndex_from_found {A} (p : A -> nat -> bool) k l i :
  Part001.findIndex_from p k l = Z.of_nat i <->
  k <= i /\
  (exists x, l !! (i - k) = Some x /\ p x i = true) /\
  (forall j x, j < i - k -> l !! j = Some x -> p x (k + j) = false).
Proof.
  revert k. induction l as [|el l IH]; intros k; cbn [Part001.findIndex_from].
  - split; [lia|]. intros (_ & (x & Hx & _) & _). discriminate.
  - destruct (p el k) eqn:Hp.
    + split.
      * intros Heq. assert (i = k) as -> by lia.
        rewrite Nat.sub_diag. split; [lia|]. split; [eauto|].
        intros j x Hj. lia.
      * intros (Hk & (x & Hx & Hpx) & Hbefore).
        destruct (decide (i = k)) as [->|Hne]; [reflexivity|].
        specialize (Hbefore 0 el ltac:(lia) eq_refl).
        rewrite Nat.add_0_r in Hbefore. congruence.
    + rewrite IH. split.
      * intros (Hk & (x & Hx & Hpx) & Hbefore). split; [lia|]. split.
        -- exists x. replace (i - k) with (S (i - S k)) by lia.
           split; assumption.
        -- intros [|j] y Hj Hy.
           ++ rewrite Nat.add_0_r. injection Hy as <-. exact Hp.
           ++ replace (k + S j) with (S k + j) by lia.
              apply Hbefore; [lia|exact Hy].
      * intros (Hk & (x & Hx & Hpx) & Hbefore).
        destruct (decide (i = k)) as [->|Hne].
        { rewrite Nat.sub_diag in Hx. injection Hx as <-. congruence. }
        split; [lia|]. split.
        -- exists x. replace (i - k) with (S (i - S k)) in Hx by lia.
           split; assumption.
        -- intros j y Hj Hy. replace (S k + j) with (k + S j) by lia.
           apply (Hbefore (S j) y); [lia|exact Hy].
Qed.

Lemma findIndex_from_range {A} (p : A -> nat -> bool) k l :
  Part001.findIndex_from p k l = (-1)%Z \/
  exists i, Part001.findIndex_from p k l = Z.of_nat i.
Proof.
  revert k. induction l as [|el l IH]; intros k; cbn [Part001.findIndex_from].
  - left. reflexivity.
  - destruct (p el k); [right; eauto|apply IH].
Qed.

Lemma policy_of_index_value index policy :
  Part001.policy_of_index index = Some policy <->
  index = Z.of_nat (Part001.policy_value policy).
Proof.
  unfold Part001.policy_of_index. split.
  - repeat (case_match; [intros [= <-]; cbn; lia|]). discriminate.
  - intros ->. destruct policy; reflexivity.
Qed.

(** [getUserReplacePrecision] returns a precision exactly for a two-clause
    range in which some position has a lower-bound component that the
    upper-bound component exceeds, the first such position being one of
    0..3; the precision is that position.  Positions the lower bound does
    not have never count. *)
Theorem getUserReplacePrecision_spec `{Pep440.Lib} (ranges : list Range)
    (policy : Part001.ReplaceUserPolicy) :
  Part001.getUserReplacePrecision ranges = Some policy <->
  exists lower upper,
    ranges = [lower; upper] /\
    let lowerBound := release_of (version lower) in
    let upperBound := release_of (version upper) in
    let i := Part001.policy_value policy in
    (exists low up,
        lowerBound !! i = Some low /\ upperBound !! i = Some up /\
        (low < up)%N) /\
    (forall j low up,
        j < i -> lowerBound !! j = Some low -> upperBound !! j = Some up ->
        (up <= low)%N).
Proof.
  unfold Part001.getUserReplacePrecision.
  destruct ranges as [|lower [|upper [|third rest]]].
  1, 2, 4: split; [discriminate|]; intros (? & ? & ? & _); discriminate.
  rewrite policy_of_index_value. unfold Part001.findIndex.
  rewrite findIndex_from_found. rewrite Nat.sub_0_r.
  set (lowerBound := release_of (version lower)).
  set (upperBound := release_of (version upper)).
  split.
  - intros (_ & (up & Hup & Hex) & Hbefore). exists lower, upper.
    split; [reflexivity|]. cbn zeta. fold lowerBound upperBound.
    unfold Part001.exceeds in Hex.
    destruct (lowerBound !! Part001.policy_value policy) as [low|] eqn:Hlow;
      [|discriminate].
    split.
    + exists low, up. repeat split; [exact Hup|]. apply N.ltb_lt. exact Hex.
    + intros j low' up' Hj Hlow' Hup'.
      specialize (Hbefore j up' ltac:(lia) Hup').
      unfold Part001.exceeds in Hbefore. cbn in Hbefore.
      rewrite Hlow' in Hbefore. apply N.ltb_ge. exact Hbefore.
  - intros (lower' & upper' & [= <- <-] & (low & up & Hlow & Hup & Hlt) & Hb).
    fold lowerBound upperBound in Hlow, Hup, Hb.
    split; [lia|]. split.
    + exists up. split; [exact Hup|]. unfold Part001.exceeds.
      rewrite Hlow. apply N.ltb_lt. exact Hlt.
    + intros j up' Hj Hup'. unfold Part001.exceeds. cbn.
      destruct (lowerBound !! j) as [low'|] eqn:Hlow'; [|reflexivity].
      apply N.ltb_ge. apply (Hb j low' up'); [lia|exact Hlow'|exact Hup'].
Qed.

Lemma getUserReplacePrecision_spec_witness :
  @Part001.getUserReplacePrecision Release.lib
    [ {| operator := ">="; prefix := None; version := "19.12.2" |};
      {| operator := "<"; prefix := None; version := "19.13.0" |} ]
  = Some Part001.Minor.
Proof.
  apply (@getUserReplacePrecision_spec Release.lib).
  eexists _, _. split; [reflexivity|]. cbn zeta. split.
  - exists 12%N, 13%N. repeat split.
  - intros j low up Hj. cbn in Hj. assert (j = 0) as -> by lia.
    intros [= <-] [= <-]. reflexivity.
Defined.

(** The second example of the source's comment: a range whose first
    component already differs is of [Major] precision; equal bounds have
    no precision. *)
Example getUserReplacePrecision_examples :
  @Part001.getUserReplacePrecision Release.lib
    [ {| operator := ">="; prefix := None; version := "19.12.2" |};
      {| operator := "<"; prefix := None; version := "20.12.9" |} ]
  = Some Part001.Major /\
  @Part001.getUserReplacePrecision Release.lib
    [ {| operator := ">="; prefix := None; version := "1.0" |};
      {| operator := "<"; prefix := None; version := "1.0" |} ]
  = None.
Proof. split; reflexivity. Qed.

Lemma lookup_futureReplaceRelease toRelease policy j :
  futureReplaceRelease toRelease policy !! j
  = (fun num =>
       if (j <? Part001.policy_value policy)%nat then num
       else if (j =? Part001.policy_value policy)%nat then (num + 1)%N
       else 0%N) <$> toRelease !! j.
Proof. unfold futureReplaceRelease. apply list_lookup_imap. Qed.

Lemma length_futureReplaceRelease toRelease policy :
  length (futureReplaceRelease toRelease policy) = length toRelease.
Proof. unfold futureReplaceRelease. apply length_imap. Qed.

(** When the new version has a component at the precision's position,
    and its components plus one stay within the exact range of number
    arithmetic, [getFutureReplaceVersion] keeps the components before it,
    adds one at it and zeroes the rest: the result is strictly above the
    new version under positional comparison. *)
Theorem getFutureReplaceVersion_exceeds `{Pep440.Lib} (newVersion : string)
    (policy : Part001.ReplaceUserPolicy) :
  let toRelease := release_of newVersion in
  let i := Part001.policy_value policy in
  i < length toRelease ->
  within_exact_range toRelease 1 ->
  exists out,
    Part001.getFutureReplaceVersion newVersion policy = join_release out /\
    length out = length toRelease /\
    (forall j, j < i -> out !! j = toRelease !! j) /\
    out !! i = Some (component toRelease i + 1)%N /\
    (forall j, i < j < length toRelease -> out !! j = Some 0%N) /\
    tuple_lt toRelease out.
Proof.
  intros toRelease i Hi _.
  exists (futureReplaceRelease toRelease policy).
  split; [reflexivity|]. split; [apply length_futureReplaceRelease|].
  assert (forall j, j < i ->
            futureReplaceRelease toRelease policy !! j = toRelease !! j)
    as Hbefore.
  { intros j Hj. rewrite lookup_futureReplaceRelease. fold i.
    destruct (Nat.ltb_spec j i); [|lia].
    destruct (toRelease !! j); reflexivity. }
  assert (futureReplaceRelease toRelease policy !! i
          = Some (component toRelease i + 1)%N) as Hat.
  { rewrite lookup_futureReplaceRelease. fold i.
    destruct (Nat.ltb_spec i i); [lia|]. rewrite Nat.eqb_refl.
    rewrite (lookup_component toRelease i Hi). reflexivity. }
  split; [exact Hbefore|]. split; [exact Hat|]. split.
  - intros j Hj. rewrite lookup_futureReplaceRelease. fold i.
    destruct (Nat.ltb_spec j i); [lia|].
    destruct (Nat.eqb_spec j i); [lia|].
    rewrite (lookup_component toRelease j) by lia. reflexivity.
  - apply (tuple_lt_intro i).
    + intros j Hj. unfold component. rewrite Hbefore by exact Hj.
      reflexivity.
    + assert (component (futureReplaceRelease toRelease policy) i
              = component toRelease i + 1)%N as ->
        by (unfold component at 1; rewrite Hat; reflexivity).
      apply N.lt_add_pos_r. reflexivity.
Qed.

Lemma getFutureReplaceVersion_exceeds_witness :
  exists out,
    @Part001.getFutureReplaceVersion Release.lib "20.3.2" Part001.Minor
    = join_release out /\
    out !! 1 = Some 4%N /\ tuple_lt [20; 3; 2]%N out.
Proof.
  destruct (@getFutureReplaceVersion_exceeds Release.lib "20.3.2"
              Part001.Minor ltac:(vm_compute; lia)
              ltac:(split; [|repeat constructor]; vm_compute; discriminate))
    as (out & Hout & _ & _ & Hat & _ & Hlt).
  exists out. repeat split; assumption.
Defined.

(** When the new version has no component at the precision's position
    (precision [Bug] and a three-component version), nothing is added:
    [getFutureReplaceVersion] returns the new version's release as it is,
    which is no upper bound for the new version. *)
Theorem getFutureReplaceVersion_short `{Pep440.Lib} (newVersion : string)
    (policy : Part001.ReplaceUserPolicy) :
  length (release_of newVersion) <= Part001.policy_value policy ->
  Part001.getFutureReplaceVersion newVersion policy
  = join_release (release_of newVersion).
Proof.
  intros Hshort. unfold Part001.getFutureReplaceVersion. f_equal.
  apply list_eq. intros j. rewrite list_lookup_imap.
  destruct (release_of newVersion !! j) as [num|] eqn:Hj; [|reflexivity].
  apply lookup_lt_Some in Hj.
  destruct (Nat.ltb_spec j (Part001.policy_value policy)); [reflexivity|lia].
Qed.

Lemma getFutureReplaceVersion_short_witness :
  @Part001.getFutureReplaceVersion Release.lib "1.0.1" Part001.Bug = "1.0.1".
Proof.
  apply (@getFutureReplaceVersion_short Release.lib "1.0.1" Part001.Bug).
  vm_compute. lia.
Defined.

(** A bracket of [Bug] precision and a shorter new version: the upper
    bound becomes the new version itself and the result is null. *)
Example replace_precision_beyond_version :
  @Part001.getNewValue Release.lib
    {| currentValue := ">=1.0.0.0,<1.0.0.1"; rangeStrategy := "replace";
       currentVersion := "1.0.0.0"; newVersion := "1.0.1" |}
  = Ret None.
Proof. reflexivity. Qed.

(** ** [getNewValue]: strategies, null results, separators *)

Section NewValueMore.

Context `{L : Pep440.Lib}.

Lemma RangeTs_getNewValueF_unsupported self cv rs cver nv :
  rs <> "pin" -> rs <> "replace" -> rs <> "bump" ->
  self {| currentValue := cv; rangeStrategy := "replace";
          currentVersion := cver; newVersion := nv |}
  = RangeTs.getNewValueF self
      {| currentValue := cv; rangeStrategy := "replace";
         currentVersion := cver; newVersion := nv |} ->
  RangeTs.getNewValueF self
    {| currentValue := cv; rangeStrategy := rs;
       currentVersion := cver; newVersion := nv |}
  = RangeTs.getNewValueF self
      {| currentValue := cv; rangeStrategy := "replace";
         currentVersion := cver; newVersion := nv |}.
Proof.
  intros Hpin Hreplace Hbump Hself.
  set (X := RangeTs.getNewValueF self
              {| currentValue := cv; rangeStrategy := "replace";
                 currentVersion := cver; newVersion := nv |}) in *.
  unfold RangeTs.getNewValueF.
  destruct (String.eqb_spec rs "pin") as [|_]; [done|].
  destruct (String.eqb cv cver) eqn:Hne;
    [subst X; unfold RangeTs.getNewValueF; rewrite Hne; reflexivity|].
  destruct (Pep440.parseRange cv) as [ranges|] eqn:Hparse;
    [|subst X; unfold RangeTs.getNewValueF; rewrite Hne, Hparse; reflexivity].
  destruct (length ranges =? 0)%nat eqn:Hlen;
    [subst X; unfold RangeTs.getNewValueF; rewrite Hne, Hparse, Hlen;
     reflexivity|].
  cbn [includes existsb].
  destruct (String.eqb_spec rs "replace") as [|_]; [done|].
  destruct (String.eqb_spec rs "bump") as [|_]; [done|].
  cbn [orb negb]. rewrite Hself.
  destruct (String.eqb rs "auto"); cbn [orb]; run_bind; [|reflexivity].
  subst X. unfold RangeTs.getNewValueF. rewrite Hne, Hparse, Hlen.
  cbn [String.eqb Ascii.eqb Bool.eqb orb].
  destruct (Pep440.satisfies nv cv) as [[|]|]; reflexivity.
Qed.

Lemma Part001_getNewValueF_unsupported self cv rs cver nv :
  rs <> "pin" -> rs <> "replace" -> rs <> "bump" -> rs <> "widen" ->
  self {| currentValue := cv; rangeStrategy := "replace";
          currentVersion := cver; newVersion := nv |}
  = Part001.getNewValueF self
      {| currentValue := cv; rangeStrategy := "replace";
         currentVersion := cver; newVersion := nv |} ->
  Part001.getNewValueF self
    {| currentValue := cv; rangeStrategy := rs;
       currentVersion := cver; newVersion := nv |}
  = Part001.getNewValueF self
      {| currentValue := cv; rangeStrategy := "replace";
         currentVersion := cver; newVersion := nv |}.
Proof.
  intros Hpin Hreplace Hbump Hwiden Hself.
  set (X := Part001.getNewValueF self
              {| currentValue := cv; rangeStrategy := "replace";
                 currentVersion := cver; newVersion := nv |}) in *.
  unfold Part001.getNewValueF.
  destruct (String.eqb_spec rs "pin") as [|_]; [done|].
  destruct (String.eqb cv cver) eqn:Hne;
    [subst X; unfold Part001.getNewValueF; rewrite Hne; reflexivity|].
  destruct (Pep440.parseRange cv) as [ranges|] eqn:Hparse;
    [|subst X; unfold Part001.getNewValueF; rewrite Hne, Hparse; reflexivity].
  destruct (length ranges =? 0)%nat eqn:Hlen;
    [subst X; unfold Part001.getNewValueF; rewrite Hne, Hparse, Hlen;
     reflexivity|].
  cbn [includes existsb].
  destruct (String.eqb_spec rs "replace") as [|_]; [done|].
  destruct (String.eqb_spec rs "bump") as [|_]; [done|].
  destruct (String.eqb_spec rs "widen") as [|_]; [done|].
  cbn [orb negb]. rewrite Hself.
  destruct (String.eqb rs "auto"); cbn [orb]; run_bind; [|reflexivity].
  subst X. unfold Part001.getNewValueF. rewrite Hne, Hparse, Hlen.
  cbn [String.eqb Ascii.eqb Bool.eqb orb].
  destruct (Pep440.satisfies nv cv) as [[|]|]; reflexivity.
Qed.

(** Every strategy other than [pin] and [bump] (and, in part_001, [widen])
    gives what [replace] gives: [auto], [extend], and any string the code
    does not know. *)
Theorem getNewValue_unsupported_is_replace (cv rs cver nv : string) :
  rs <> "pin" -> rs <> "bump" ->
  RangeTs.getNewValue
    {| currentValue := cv; rangeStrategy := rs;
       currentVersion := cver; newVersion := nv |}
  = RangeTs.getNewValue
      {| currentValue := cv; rangeStrategy := "replace";
         currentVersion := cver; newVersion := nv |} /\
  (rs <> "widen" ->
   Part001.getNewValue
     {| currentValue := cv; rangeStrategy := rs;
        currentVersion := cver; newVersion := nv |}
   = Part001.getNewValue
       {| currentValue := cv; rangeStrategy := "replace";
          currentVersion := cver; newVersion := nv |}).
Proof.
  intros Hpin Hbump.
  destruct (String.eqb_spec rs "replace") as [->|Hreplace];
    [split; reflexivity|].
  split; [|intros Hwiden].
  - unfold RangeTs.getNewValue.
    apply RangeTs_getNewValueF_unsupported; try assumption.
    apply RangeTs_getNewValueF_replace.
  - unfold Part001.getNewValue.
    apply Part001_getNewValueF_unsupported; try assumption.
    apply Part001_getNewValueF_replace.
Qed.

End NewValueMore.

Lemma getNewValue_unsupported_is_replace_witness :
  @RangeTs.getNewValue Release.lib
    {| currentValue := ">=1.0.0,<2.0.0"; rangeStrategy := "widen";
       currentVersion := "1.5.0"; newVersion := "2.3.0" |}
  = @RangeTs.getNewValue Release.lib
      {| currentValue := ">=1.0.0,<2.0.0"; rangeStrategy := "replace";
         currentVersion := "1.5.0"; newVersion := "2.3.0" |} /\
  @Part001.getNewValue Release.lib
    {| currentValue := ">=1.0.0,<2.0.0"; rangeStrategy := "auto";
       currentVersion := "1.5.0"; newVersion := "2.3.0" |}
  = @Part001.getNewValue Release.lib
      {| currentValue := ">=1.0.0,<2.0.0"; rangeStrategy := "replace";
         currentVersion := "1.5.0"; newVersion := "2.3.0" |}.
Proof.
  split.
  - apply (@getNewValue_unsupported_is_replace Release.lib
             ">=1.0.0,<2.0.0" "widen" "1.5.0" "2.3.0"); discriminate.
  - apply (@getNewValue_unsupported_is_replace Release.lib
             ">=1.0.0,<2.0.0" "auto" "1.5.0" "2.3.0"); discriminate.
Defined.

Section NullResults.

Context `{L : Pep440.Lib}.

Lemma RangeTs_getNewValueF_null self cv rs cver nv ranges :
  rs <> "pin" -> cv <> cver ->
  Pep440.parseRange cv = Some ranges ->
  some_arbitrary_equality ranges = true ->
  rs = "bump" \/ Pep440.satisfies nv cv = Ret false ->
  (includes ["replace"; "bump"] rs = false ->
   Pep440.satisfies nv cv = Ret false ->
   self {| currentValue := cv; rangeStrategy := "replace";
           currentVersion := cver; newVersion := nv |} = Ret None) ->
  RangeTs.getNewValueF self
    {| currentValue := cv; rangeStrategy := rs;
       currentVersion := cver; newVersion := nv |} = Ret None.
Proof.
  intros Hpin Hne Hparse Harb Hs Hself. unfold RangeTs.getNewValueF.
  destruct (String.eqb_spec rs "pin") as [|_]; [done|].
  destruct (String.eqb_spec cv cver) as [|_]; [done|].
  rewrite Hparse. destruct ranges as [|range ranges]; [discriminate|].
  cbn [length Nat.eqb]. rewrite Harb.
  destruct Hs as [->|Hsat]; [reflexivity|].
  destruct (_ || _); [rewrite Hsat|]; run_bind;
    (destruct (includes _ rs) eqn:Hinc; cbn [negb];
     [reflexivity|apply Hself; [reflexivity|exact Hsat]]).
Qed.

Lemma Part001_getNewValueF_null self cv rs cver nv ranges :
  rs <> "pin" -> cv <> cver ->
  Pep440.parseRange cv = Some ranges ->
  some_arbitrary_equality ranges = true ->
  rs = "bump" \/ Pep440.satisfies nv cv = Ret false ->
  (includes ["replace"; "bump"; "widen"] rs = false ->
   Pep440.satisfies nv cv = Ret false ->
   self {| currentValue := cv; rangeStrategy := "replace";
           currentVersion := cver; newVersion := nv |} = Ret None) ->
  Part001.getNewValueF self
    {| currentValue := cv; rangeStrategy := rs;
       currentVersion := cver; newVersion := nv |} = Ret None.
Proof.
  intros Hpin Hne Hparse Harb Hs Hself. unfold Part001.getNewValueF.
  destruct (String.eqb_spec rs "pin") as [|_]; [done|].
  destruct (String.eqb_spec cv cver) as [|_]; [done|].
  rewrite Hparse. destruct ranges as [|range ranges]; [discriminate|].
  cbn [length Nat.eqb]. rewrite Harb.
  destruct Hs as [->|Hsat]; [reflexivity|].
  destruct (_ || _); [rewrite Hsat|]; run_bind;
    (destruct (includes _ rs) eqn:Hinc; cbn [negb];
     [reflexivity|apply Hself; [reflexivity|exact Hsat]]).
Qed.

(** A constraint with an arbitrary-equality clause ([===]) is given up:
    unless the already-satisfied shortcut returns it unchanged, the result
    is null, and no clause is compared or rewritten.  This holds under
    [bump], and under every other strategy but [pin] when the new version
    does not satisfy the current value. *)
Theorem getNewValue_arbitrary_equality_null (config : NewValueConfig)
    (ranges : list Range) :
  rangeStrategy config <> "pin" ->
  currentValue config <> currentVersion config ->
  Pep440.parseRange (currentValue config) = Some ranges ->
  some_arbitrary_equality ranges = true ->
  rangeStrategy config = "bump" \/
  Pep440.satisfies (newVersion config) (currentValue config) = Ret false ->
  RangeTs.getNewValue config = Ret None /\
  Part001.getNewValue config = Ret None.
Proof.
  destruct config as [cv rs cver nv].
  cbn [currentValue rangeStrategy currentVersion newVersion].
  intros Hpin Hne Hparse Harb Hs. split.
  - unfold RangeTs.getNewValue.
    apply (RangeTs_getNewValueF_null _ cv rs cver nv ranges); try assumption.
    intros _ Hsat.
    apply (RangeTs_getNewValueF_null _ cv "replace" cver nv ranges);
      try assumption; [discriminate|right; exact Hsat|discriminate].
  - unfold Part001.getNewValue.
    apply (Part001_getNewValueF_null _ cv rs cver nv ranges); try assumption.
    intros _ Hsat.
    apply (Part001_getNewValueF_null _ cv "replace" cver nv ranges);
      try assumption; [discriminate|right; exact Hsat|discriminate].
Qed.

End NullResults.

Lemma getNewValue_arbitrary_equality_null_witness :
  let config := {| currentValue := "===1.0.0"; rangeStrategy := "replace";
                   currentVersion := "1.0.0"; newVersion := "1.2.0" |} in
  @RangeTs.getNewValue Release.lib config = Ret None /\
  @Part001.getNewValue Release.lib config = Ret None.
Proof.
  intros config.
  apply (@getNewValue_arbitrary_equality_null Release.lib config
           [ {| operator := "==="; prefix := None; version := "1.0.0" |} ]).
  - discriminate.
  - discriminate.
  - reflexivity.
  - reflexivity.
  - right. reflexivity.
Defined.

(** With a new version that satisfies it, a constraint with [===] comes
    back unchanged under [replace]. *)
Example arbitrary_equality_satisfied :
  @RangeTs.getNewValue Release.lib
    {| currentValue := "===1.2.0"; rangeStrategy := "replace";
       currentVersion := "1.0.0"; newVersion := "1.2.0" |}
  = Ret (Some "===1.2.0").
Proof. reflexivity. Qed.

(** *** The separator of the result *)

Ltac run_bind_in H := cbn [mbind outcome_bind mret outcome_ret] in H.

Lemma includes_comma_space_other c s :
  c <> ","%char ->
  includes_comma_space (String c s) = includes_comma_space s.
Proof.
  intros Hc. destruct c as [[] [] [] [] [] [] [] []];
    try reflexivity; try (destruct s; reflexivity).
  all: try (exfalso; apply Hc; reflexivity).
  all: destruct s as [|[[] [] [] [] [] [] [] []] s]; reflexivity.
Qed.

Lemma includes_comma_space_comma d s :
  includes_comma_space (String ","%char (String d s))
  = if Ascii.eqb d " "%char then true
    else includes_comma_space (String d s).
Proof. destruct d as [[] [] [] [] [] [] [] []]; reflexivity. Qed.

Lemma replace_comma_space_other c s :
  c <> ","%char ->
  replace_comma_space (String c s) = String c (replace_comma_space s).
Proof.
  intros Hc. destruct c as [[] [] [] [] [] [] [] []];
    try reflexivity; try (destruct s; reflexivity).
  all: try (exfalso; apply Hc; reflexivity).
  all: destruct s as [|[[] [] [] [] [] [] [] []] s]; reflexivity.
Qed.

Lemma replace_comma_space_comma d s :
  replace_comma_space (String ","%char (String d s))
  = if Ascii.eqb d " "%char then String ","%char (replace_comma_space s)
    else String ","%char (replace_comma_space (String d s)).
Proof. destruct d as [[] [] [] [] [] [] [] []]; reflexivity. Qed.

Lemma includes_comma_space_separator a rest :
  includes_comma_space (a +:+ ", " +:+ rest) = true.
Proof.
  induction a as [|c r IH]; [reflexivity|].
  change (String c r +:+ ", " +:+ rest)
    with (String c (r +:+ ", " +:+ rest)).
  destruct (Ascii.eqb_spec c ","%char) as [->|Hc].
  - destruct r as [|d r]; [reflexivity|].
    change (String d r +:+ ", " +:+ rest)
      with (String d (r +:+ ", " +:+ rest)) in *.
    rewrite includes_comma_space_comma.
    destruct (Ascii.eqb d " "%char); [reflexivity|exact IH].
  - rewrite includes_comma_space_other by exact Hc. exact IH.
Qed.

Lemma replace_comma_space_separator a rest :
  includes_comma_space a = false ->
  replace_comma_space (a +:+ ", " +:+ rest)
  = a +:+ "," +:+ replace_comma_space rest.
Proof.
  induction a as [|c r IH]; [reflexivity|]. intros Ha.
  change (String c r +:+ ", " +:+ rest)
    with (String c (r +:+ ", " +:+ rest)).
  change (String c r +:+ "," +:+ replace_comma_space rest)
    with (String c (r +:+ "," +:+ replace_comma_space rest)).
  destruct (Ascii.eqb_spec c ","%char) as [->|Hc].
  - destruct r as [|d r]; [reflexivity|].
    rewrite includes_comma_space_comma in Ha.
    change (String d r +:+ ", " +:+ rest)
      with (String d (r +:+ ", " +:+ rest)) in *.
    rewrite replace_comma_space_comma.
    destruct (Ascii.eqb d " "%char); [discriminate|].
    rewrite (IH Ha). reflexivity.
  - rewrite includes_comma_space_other in Ha by exact Hc.
    rewrite replace_comma_space_other by exact Hc. rewrite (IH Ha).
    reflexivity.
Qed.

Lemma replace_comma_space_clean a :
  includes_comma_space a = false -> replace_comma_space a = a.
Proof.
  induction a as [|c r IH]; [reflexivity|]. intros Ha.
  destruct (Ascii.eqb_spec c ","%char) as [->|Hc].
  - destruct r as [|d r]; [reflexivity|].
    rewrite includes_comma_space_comma in Ha.
    rewrite replace_comma_space_comma.
    destruct (Ascii.eqb d " "%char); [discriminate|]. rewrite (IH Ha).
    reflexivity.
  - rewrite includes_comma_space_other in Ha by exact Hc.
    rewrite replace_comma_space_other by exact Hc. rewrite (IH Ha).
    reflexivity.
Qed.

Lemma replace_comma_space_join clauses :
  Forall (fun clause => includes_comma_space clause = false) clauses ->
  replace_comma_space (String.concat ", " clauses)
  = String.concat "," clauses.
Proof.
  induction 1 as [|clause clauses Hc _ IH]; [reflexivity|].
  destruct clauses as [|next clauses].
  - cbn [String.concat]. apply replace_comma_space_clean. exact Hc.
  - change (String.concat ", " (clause :: next :: clauses))
      with (clause +:+ ", " +:+ String.concat ", " (next :: clauses)).
    rewrite (replace_comma_space_separator _ _ Hc), IH. reflexivity.
Qed.

(** The result keeps the caller's separator: when the current value
    contains [", "], the rewritten clauses are joined with [", "]; when it
    does not (and no clause contains [", "] itself), they are joined with
    a bare comma. *)
Theorem assemble_separator `{Pep440.Lib} (currentValue newVersion R : string)
    (rewritten : list (option string)) :
  assemble currentValue newVersion rewritten = Ret (Some R) ->
  (includes_comma_space currentValue = true ->
   R = String.concat ", " (filter_Boolean rewritten)) /\
  (includes_comma_space currentValue = false ->
   Forall (fun clause => includes_comma_space clause = false)
          (filter_Boolean rewritten) ->
   R = String.concat "," (filter_Boolean rewritten)).
Proof.
  unfold assemble. set (clauses := filter_Boolean rewritten).
  intros Hrun. split.
  - intros Hcv. rewrite Hcv, andb_false_r in Hrun.
    destruct (Pep440.satisfies newVersion _) as [[|]|];
      run_bind_in Hrun;
      [|discriminate..].
    cbn in Hrun. congruence.
  - intros Hcv Hclean. rewrite Hcv, andb_true_r in Hrun.
    assert ((if includes_comma_space (String.concat ", " clauses)
             then replace_comma_space (String.concat ", " clauses)
             else String.concat ", " clauses)
            = String.concat "," clauses) as Hjoin.
    { destruct (includes_comma_space (String.concat ", " clauses)) eqn:Hinc.
      - apply replace_comma_space_join. exact Hclean.
      - destruct clauses as [|clause [|next clauses]]; try reflexivity.
        change (String.concat ", " (clause :: next :: clauses))
          with (clause +:+ ", " +:+ String.concat ", " (next :: clauses))
          in Hinc.
        rewrite includes_comma_space_separator in Hinc. discriminate. }
    rewrite Hjoin in Hrun.
    destruct (Pep440.satisfies newVersion _) as [[|]|];
      run_bind_in Hrun;
      [|discriminate..].
    cbn in Hrun. congruence.
Qed.

Lemma assemble_separator_witness :
  ">=1.0.0,<2.4.0" = String.concat "," [">=1.0.0"; "<2.4.0"] /\
  ">=1.0.0, <2.4.0" = String.concat ", " [">=1.0.0"; "<2.4.0"].
Proof.
  assert (@assemble Release.lib ">=1.0.0,<2.0.0" "2.3.0"
            [Some ">=1.0.0"; Some "<2.4.0"] = Ret (Some ">=1.0.0,<2.4.0"))
    as Hbare by reflexivity.
  assert (@assemble Release.lib ">=1.0.0, <2.0.0" "2.3.0"
            [Some ">=1.0.0"; Some "<2.4.0"] = Ret (Some ">=1.0.0, <2.4.0"))
    as Hspace by reflexivity.
  split.
  - apply (proj2 (@assemble_separator Release.lib _ _ _ _ Hbare));
      [reflexivity|].
    repeat constructor.
  - apply (proj1 (@assemble_separator Release.lib _ _ _ _ Hspace)).
    reflexivity.
Defined.

(** ** src/unnamed/part_000: the slash helpers *)

Lemma only_slashes_app a b :
  Url.only_slashes (a +:+ b) = Url.only_slashes a && Url.only_slashes b.
Proof.
  induction a as [|c r IH]; [reflexivity|].
  change (String c r +:+ b) with (String c (r +:+ b)).
  cbn [Url.only_slashes]. rewrite IH, andb_assoc. reflexivity.
Qed.

Lemma only_slashes_ends s :
  Url.only_slashes s = true -> s <> "" -> Url.ends_with_slash s = true.
Proof.
  induction s as [|c r IH]; [done|]. cbn [Url.only_slashes].
  intros Hs _. apply andb_true_iff in Hs. destruct Hs as [Hc Hr].
  cbn [Url.ends_with_slash].
  destruct (String.eqb_spec r ""); [exact Hc|]. apply IH; assumption.
Qed.

Lemma trim_only_slashes s :
  Url.only_slashes s = true -> Url.trimTrailingSlash s = "".
Proof.
  destruct s as [|c r]; [reflexivity|]. cbn [Url.only_slashes].
  intros Hs. cbn [Url.trimTrailingSlash]. rewrite Hs. reflexivity.
Qed.

Lemma trim_empty_only_slashes s :
  Url.trimTrailingSlash s = "" -> Url.only_slashes s = true.
Proof.
  destruct s as [|c r]; [reflexivity|].
  cbn [Url.trimTrailingSlash Url.only_slashes].
  destruct (_ && _); [reflexivity|discriminate].
Qed.

Lemma trim_app_slashes s slashes :
  Url.only_slashes slashes = true ->
  Url.trimTrailingSlash (s +:+ slashes) = Url.trimTrailingSlash s.
Proof.
  intros Hsl. induction s as [|c r IH].
  - rewrite append_empty. apply trim_only_slashes. exact Hsl.
  - change (String c r +:+ slashes) with (String c (r +:+ slashes)).
    cbn [Url.trimTrailingSlash].
    rewrite only_slashes_app, Hsl, andb_true_r, IH. reflexivity.
Qed.

Lemma trim_no_trailing_slash s :
  Url.ends_with_slash (Url.trimTrailingSlash s) = false.
Proof.
  induction s as [|c r IH]; [reflexivity|]. cbn [Url.trimTrailingSlash].
  destruct (Ascii.eqb c "/" && Url.only_slashes r) eqn:Hc; [reflexivity|].
  cbn [Url.ends_with_slash].
  destruct (String.eqb_spec (Url.trimTrailingSlash r) "") as [He|_];
    [|exact IH].
  apply trim_empty_only_slashes in He. rewrite He, andb_true_r in Hc.
  exact Hc.
Qed.

Lemma trim_fixed s :
  Url.ends_with_slash s = false -> Url.trimTrailingSlash s = s.
Proof.
  induction s as [|c r IH]; [reflexivity|]. intros Hs.
  cbn [Url.trimTrailingSlash].
  destruct (Ascii.eqb c "/" && Url.only_slashes r) eqn:Hc.
  - rewrite only_slashes_ends in Hs; [discriminate| |discriminate].
    exact Hc.
  - cbn [Url.ends_with_slash] in Hs.
    destruct (String.eqb_spec r "") as [->|Hr]; [reflexivity|].
    rewrite (IH Hs). reflexivity.
Qed.

Lemma ensure_closed url :
  Url.ensureTrailingSlash url
  = if Url.ends_with_slash url then url else url +:+ "/".
Proof.
  induction url as [|c r IH]; [reflexivity|].
  cbn [Url.ensureTrailingSlash Url.ends_with_slash].
  destruct (String.eqb_spec r "") as [->|Hr].
  - destruct (Ascii.eqb_spec c "/"%char) as [->|Hc]; reflexivity.
  - rewrite andb_false_r, IH.
    destruct (Url.ends_with_slash r); reflexivity.
Qed.

Lemma ends_with_slash_app s : Url.ends_with_slash (s +:+ "/") = true.
Proof.
  induction s as [|c r IH]; [reflexivity|].
  change (String c r +:+ "/") with (String c (r +:+ "/")).
  cbn [Url.ends_with_slash].
  destruct (String.eqb_spec (r +:+ "/") "") as [He|_]; [|exact IH].
  destruct r; discriminate.
Qed.

(** [ensureTrailingSlash] leaves a URL that ends with a slash as it is and
    appends one slash otherwise (also to the empty string); its result
    always ends with a slash, and applying it twice changes nothing
    more. *)
Theorem ensureTrailingSlash_spec (url : string) :
  Url.ensureTrailingSlash url
  = (if Url.ends_with_slash url then url else url +:+ "/") /\
  Url.ends_with_slash (Url.ensureTrailingSlash url) = true /\
  Url.ensureTrailingSlash (Url.ensureTrailingSlash url)
  = Url.ensureTrailingSlash url.
Proof.
  assert (Url.ends_with_slash (Url.ensureTrailingSlash url) = true) as Hends.
  { rewrite ensure_closed.
    destruct (Url.ends_with_slash url) eqn:He; [exact He|].
    apply ends_with_slash_app. }
  split; [apply ensure_closed|]. split; [exact Hends|].
  rewrite (ensure_closed (Url.ensureTrailingSlash url)), Hends. reflexivity.
Qed.

(** [trimTrailingSlash] removes all the slashes at the end and nothing
    else: the URL is the result followed by slashes only, the result does
    not end with a slash, and applying it twice changes nothing more. *)
Theorem trimTrailingSlash_spec (url : string) :
  (exists slashes,
      Url.only_slashes slashes = true /\
      url = Url.trimTrailingSlash url +:+ slashes) /\
  Url.ends_with_slash (Url.trimTrailingSlash url) = false /\
  Url.trimTrailingSlash (Url.trimTrailingSlash url)
  = Url.trimTrailingSlash url.
Proof.
  split; [|split].
  - induction url as [|c r IH]; [exists ""; split; reflexivity|].
    cbn [Url.trimTrailingSlash].
    destruct (Ascii.eqb c "/" && Url.only_slashes r) eqn:Hc.
    + exists (String c r). split; [exact Hc|reflexivity].
    + destruct IH as (slashes & Hsl & Hr). exists slashes.
      split; [exact Hsl|]. rewrite append_String, <- Hr. reflexivity.
  - apply trim_no_trailing_slash.
  - apply trim_fixed, trim_no_trailing_slash.
Qed.

(** The two helpers compose: trimming after ensuring is trimming;
    ensuring after trimming leaves exactly one slash at the end; and a URL
    without a slash at its end comes back from ensuring then trimming. *)
Theorem slash_helpers_compose (url : string) :
  Url.trimTrailingSlash (Url.ensureTrailingSlash url)
  = Url.trimTrailingSlash url /\
  Url.ensureTrailingSlash (Url.trimTrailingSlash url)
  = Url.trimTrailingSlash url +:+ "/" /\
  (Url.ends_with_slash url = false ->
   Url.trimTrailingSlash (Url.ensureTrailingSlash url) = url).
Proof.
  assert (Url.trimTrailingSlash (Url.ensureTrailingSlash url)
          = Url.trimTrailingSlash url) as Htrim.
  { rewrite ensure_closed. destruct (Url.ends_with_slash url); [reflexivity|].
    apply trim_app_slashes. reflexivity. }
  split; [exact Htrim|]. split.
  - rewrite ensure_closed, trim_no_trailing_slash. reflexivity.
  - intros Hends. rewrite Htrim. apply trim_fixed. exact Hends.
Qed.

Lemma slash_helpers_compose_witness :
  Url.trimTrailingSlash (Url.ensureTrailingSlash "https://example.com/api")
  = "https://example.com/api".
Proof.
  apply (proj2 (proj2 (slash_helpers_compose "https://example.com/api"))).
  reflexivity.
Defined.

(** ** The two snapshots under [bump] *)

Lemma mapM_ext_Forall {A B} (f g : A -> outcome B) (l : list A) :
  Forall (fun a => f a = g a) l -> mapM f l = mapM g l.
Proof.
  induction 1 as [|a l Ha _ IH]; [reflexivity|].
  cbn [mapM]. rewrite Ha, IH. reflexivity.
Qed.

Section SnapshotsUnderBump.

Context `{L : Pep440.Lib}.

Lemma getFutureVersion_agree baseVersion newVersion step :
  scans_agree (release_of baseVersion) (release_of newVersion) step ->
  RangeTs.getFutureVersion baseVersion newVersion step
  = Part001.getFutureVersion baseVersion newVersion step.
Proof.
  intros Hagree. apply scans_agree_eq in Hagree.
  unfold RangeTs.getFutureVersion, Part001.getFutureVersion.
  rewrite Hagree. reflexivity.
Qed.

Lemma rewrite_agree_under_bump ranges newVersion range :
  future_versions_agree newVersion range ->
  RangeTs.rewrite "bump" newVersion range
  = Part001.rewrite ranges "bump" newVersion range.
Proof.
  destruct range as [op pre ver]. unfold future_versions_agree.
  cbn [operator prefix version]. intros [Hupper Hwild].
  unfold RangeTs.rewrite, Part001.rewrite.
  cbn [operator prefix version].
  destruct (String.eqb op "!="); [reflexivity|].
  destruct (includes [">"; ">="] op); [reflexivity|].
  destruct (String.eqb_spec op "<") as [->|_].
  - rewrite (getFutureVersion_agree _ _ _ (Hupper eq_refl)).
    destruct (Pep440.gte newVersion ver) as [[|]|]; run_bind;
      try reflexivity.
    destruct (Part001.getUserReplacePrecision ranges); reflexivity.
  - destruct (truthy pre) eqn:Hpre; [|reflexivity].
    rewrite (getFutureVersion_agree _ _ _ (Hwild eq_refl)). reflexivity.
Qed.

(** Under [bump] the two snapshots of [getNewValue] return the same
    result whenever their two [getFutureVersion] agree on the upper-bound
    and wildcard clauses of the current value; everything else in the two
    rule tables is the same for this strategy. *)
Theorem getNewValue_snapshots_agree_under_bump (config : NewValueConfig) :
  rangeStrategy config = "bump" ->
  (forall ranges range,
      Pep440.parseRange (currentValue config) = Some ranges ->
      range ∈ ranges ->
      future_versions_agree (newVersion config) range) ->
  RangeTs.getNewValue config = Part001.getNewValue config.
Proof.
  destruct config as [cv rs cver nv].
  cbn [currentValue rangeStrategy currentVersion newVersion].
  intros -> Hagree.
  unfold RangeTs.getNewValue, Part001.getNewValue.
  unfold RangeTs.getNewValueF at 1, Part001.getNewValueF at 1.
  cbn [String.eqb Ascii.eqb Bool.eqb].
  destruct (String.eqb cv cver); [reflexivity|].
  destruct (Pep440.parseRange cv) as [ranges|] eqn:Hparse; [|reflexivity].
  destruct (length ranges =? 0)%nat; [reflexivity|].
  cbn [orb includes existsb String.eqb Ascii.eqb Bool.eqb negb]. run_bind.
  destruct (some_arbitrary_equality ranges); [reflexivity|].
  rewrite (mapM_ext_Forall (RangeTs.rewrite "bump" nv)
             (Part001.rewrite ranges "bump" nv) ranges); [reflexivity|].
  apply Forall_forall. intros range Hin.
  apply rewrite_agree_under_bump. apply (Hagree ranges range eq_refl).
  exact Hin.
Qed.

End SnapshotsUnderBump.

Lemma getNewValue_snapshots_agree_under_bump_witness :
  let config := {| currentValue := ">=1.0.0,<2.0.0"; rangeStrategy := "bump";
                   currentVersion := "1.5.0"; newVersion := "2.3.0" |} in
  @RangeTs.getNewValue Release.lib config
  = @Part001.getNewValue Release.lib config.
Proof.
  intros config.
  apply (@getNewValue_snapshots_agree_under_bump Release.lib config);
    [reflexivity|].
  intros ranges range Hparse Hin.
  vm_compute in Hparse. injection Hparse as <-.
  apply elem_of_cons in Hin. destruct Hin as [->|Hin].
  - split; discriminate.
  - apply elem_of_cons in Hin. destruct Hin as [->|Hin]; [|inversion Hin].
    split; [|discriminate]. intros _. right. left. split; reflexivity.
Defined.

(** ** The release-only library

    For the library of final releases nothing about the library has to be
    assumed: a valid version satisfies its own pin and the empty
    constraint, and is not itself a constraint. *)

Lemma digits_value_acc acc acc' s :
  is_Some (Release.digits_value acc s) -> is_Some (Release.digits_value acc' s).
Proof.
  revert acc acc'. induction s as [|c r IH]; intros acc acc'; cbn [Release.digits_value].
  - intros _. eexists. reflexivity.
  - destruct (Release.is_digit c); [apply IH|intros [x Hx]; discriminate].
Qed.

Lemma is_digit_plain c : Release.is_digit c = true -> plain_char c = true.
Proof.
  destruct c as [[] [] [] [] [] [] [] []]; vm_compute; congruence.
Qed.

Lemma split_char_single sep s : split_char sep s = [""] -> s = "".
Proof.
  destruct s as [|c r]; [reflexivity|]. cbn [split_char].
  pose proof (split_char_nonempty sep r) as Hne.
  destruct (split_char sep r) as [|p ps]; [done|].
  destruct (Ascii.eqb c sep); discriminate.
Qed.

(** What a release-only version string looks like *)
Lemma number_digit c s n :
  Release.number (String c s) = Some n -> Release.is_digit c = true.
Proof.
  unfold Release.number. cbn [Release.digits_value].
  destruct (Release.is_digit c); [reflexivity|discriminate].
Qed.

Lemma explain_head v r :
  Release.explain v = Some r ->
  exists c v', v = String c v' /\ Release.is_digit c = true.
Proof.
  unfold Release.explain. destruct v as [|c v']; [discriminate|].
  cbn [split_char]. pose proof (split_char_nonempty "."%char v') as Hne.
  destruct (split_char "."%char v') as [|p ps]; [done|].
  destruct (Ascii.eqb c "."%char); cbn [mapM mbind option_bind].
  - change (Release.number "") with (@None N). discriminate.
  - destruct (Release.number (String c p)) as [n|] eqn:Hn; [|discriminate].
    intros _. exists c, v'. split; [reflexivity|].
    exact (number_digit c p n Hn).
Qed.

Lemma mapM_number_Forall ps r :
  mapM Release.number ps = Some r ->
  Forall (fun p => is_Some (Release.number p)) ps.
Proof.
  revert r. induction ps as [|p ps IH]; intros r; [constructor|].
  cbn [mapM mbind option_bind].
  destruct (Release.number p) as [n|] eqn:Hp; [|discriminate].
  destruct (mapM Release.number ps) as [r'|] eqn:Hps; [|discriminate].
  intros _. constructor; [exists n; exact Hp|]. eapply IH. reflexivity.
Qed.

(** Pieces of a split whose numbers are all readable: the string is made
    of digits and dots, and ends with a digit. *)
Lemma split_numbers_shape v p ps :
  split_char "."%char v = p :: ps ->
  (p = "" \/ is_Some (Release.number p)) ->
  Forall (fun p => is_Some (Release.number p)) ps ->
  plain v = true /\
  (is_Some (Release.number (List.last (p :: ps) "")) ->
   exists l d, list_ascii_of_string v = l ++ [d] /\
               Release.is_digit d = true).
Proof.
  revert p ps. induction v as [|c r IH]; intros p ps.
  - cbn [split_char]. intros [= <- <-] _ _. split; [reflexivity|].
    cbn. intros [x Hx]. discriminate.
  - cbn [split_char]. pose proof (split_char_nonempty "."%char r) as Hne.
    destruct (split_char "."%char r) as [|p' ps'] eqn:Hsplit; [done|].
    destruct (Ascii.eqb_spec c "."%char) as [->|Hc].
    + intros [= <- <-] _ Hall. inversion Hall as [|? ? Hp' Hps']; subst.
      destruct (IH p' ps' eq_refl (or_intror Hp') Hps') as [Hplain Hlast].
      split.
      * cbn [plain]. rewrite Hplain. reflexivity.
      * intros Hl. destruct (Hlast Hl) as (l & d & Hr & Hd).
        exists ("."%char :: l), d. cbn [list_ascii_of_string].
        rewrite Hr. split; [reflexivity|exact Hd].
    + intros [= <- <-] [Hp|Hp] Hall; [discriminate|].
      destruct Hp as [n Hn]. unfold Release.number in Hn.
      cbn [Release.digits_value] in Hn.
      destruct (Release.is_digit c) eqn:Hd; [|discriminate].
      assert (p' = "" \/ is_Some (Release.number p')) as Hp'.
      { destruct p' as [|c' p'']; [left; reflexivity|right].
        unfold Release.number.
        eapply digits_value_acc. eexists. exact Hn. }
      destruct (IH p' ps' eq_refl Hp' Hall) as [Hplain Hlast].
      split.
      * cbn [plain]. rewrite Hplain, (is_digit_plain c Hd). reflexivity.
      * intros Hl. destruct ps' as [|q qs].
        -- destruct p' as [|c' p''].
           ++ apply split_char_single in Hsplit. subst r.
              exists [], c. split; [reflexivity|exact Hd].
           ++ destruct Hp' as [|Hp']; [discriminate|].
              destruct (Hlast Hp') as (l & d & Hr & Hd').
              exists (c :: l), d. cbn [list_ascii_of_string].
              rewrite Hr. split; [reflexivity|exact Hd'].
        -- destruct (Hlast Hl) as (l & d & Hr & Hd').
           exists (c :: l), d. cbn [list_ascii_of_string].
           rewrite Hr. split; [reflexivity|exact Hd'].
Qed.

Lemma explain_shape v r :
  Release.explain v = Some r ->
  plain v = true /\
  (exists c v', v = String c v' /\ Release.is_digit c = true) /\
  (exists l d, list_ascii_of_string v = l ++ [d] /\
               Release.is_digit d = true).
Proof.
  intros Hv. pose proof (explain_head v r Hv) as Hhead.
  unfold Release.explain in Hv. apply mapM_number_Forall in Hv.
  pose proof (split_char_nonempty "."%char v) as Hne.
  destruct (split_char "."%char v) as [|p ps] eqn:Hsplit; [done|].
  inversion Hv as [|? ? Hp Hps]; subst.
  destruct (split_numbers_shape v p ps Hsplit (or_intror Hp) Hps)
    as [Hplain Hlast].
  split; [exact Hplain|]. split; [exact Hhead|]. apply Hlast.
  assert (Forall (fun p => is_Some (Release.number p)) (p :: ps)) as Hall
    by (constructor; assumption).
  clear -Hall. revert p Hall. induction ps as [|q qs IH]; intros p Hall.
  - inversion Hall; assumption.
  - inversion Hall as [|? ? _ Hrest]; subst. exact (IH q Hrest).
Qed.

Lemma is_digit_not_space c : Release.is_digit c = true -> is_space c = false.
Proof.
  destruct c as [[] [] [] [] [] [] [] []]; vm_compute; congruence.
Qed.

Lemma is_digit_cases c :
  Release.is_digit c = true ->
  c ∈ ["0"; "1"; "2"; "3"; "4"; "5"; "6"; "7"; "8"; "9"]%char.
Proof.
  destruct c as [[] [] [] [] [] [] [] []]; vm_compute; try congruence;
    intros _; repeat (first [apply list_elem_of_here|apply list_elem_of_further]).
Qed.

Lemma Release_trim_fixed s c s' l d :
  s = String c s' -> is_space c = false ->
  list_ascii_of_string s = l ++ [d] -> is_space d = false ->
  Release.trim s = s.
Proof.
  intros Hs Hc Hl Hd. unfold Release.trim.
  assert (Release.drop_spaces s = s) as ->
    by (rewrite Hs; cbn [Release.drop_spaces]; rewrite Hc; reflexivity).
  unfold Release.reverse_string at 2. rewrite Hl, rev_app_distr.
  cbn [rev app string_of_list_ascii Release.drop_spaces]. rewrite Hd.
  unfold Release.reverse_string. cbn [list_ascii_of_string rev].
  rewrite list_ascii_of_string_of_list_ascii, rev_involutive, <- Hl.
  apply string_of_list_ascii_of_string.
Qed.

Lemma tuple_compare_refl r : tuple_compare r r = Eq.
Proof.
  induction r as [|x r IH]; [reflexivity|].
  cbn [tuple_compare]. rewrite N.compare_refl. exact IH.
Qed.

(** A release-only version satisfies its own pin. *)
Lemma Release_satisfies_pin v r :
  Release.explain v = Some r ->
  Release.satisfies v ("==" +:+ v) = Ret true.
Proof.
  intros Hv. destruct (explain_shape v r Hv) as (Hplain & Hhead & Hlast).
  destruct Hhead as (c & v' & Hc & Hdc).
  destruct Hlast as (l & d & Hl & Hdd).
  set (s := "==" +:+ v).
  assert (s = String "="%char (String "="%char v)) as Hs by reflexivity.
  assert (Release.trim s = s) as Htrim.
  { apply (Release_trim_fixed s "="%char (String "="%char v)
             ("="%char :: "="%char :: l) d); [exact Hs|reflexivity| |].
    - rewrite Hs. cbn [list_ascii_of_string]. rewrite Hl. reflexivity.
    - apply is_digit_not_space. exact Hdd. }
  assert (split_comma s = [s]) as Hsplit.
  { rewrite Hs. unfold split_comma. cbn [split_char].
    fold (split_comma v). rewrite (split_comma_plain v Hplain).
    reflexivity. }
  assert (Release.strip_wildcard v = None) as Hwild.
  { unfold Release.strip_wildcard, Release.reverse_string.
    rewrite list_ascii_of_string_of_list_ascii, Hl, rev_app_distr.
    cbn [rev app]. clear -Hdd.
    destruct d as [[] [] [] [] [] [] [] []]; vm_compute in Hdd;
      try discriminate Hdd; reflexivity. }
  assert (Release.parse_clause s
          = Some {| operator := "=="; prefix := None; version := v |})
    as Hclause.
  { unfold Release.parse_clause.
    assert (List.find (fun op => String.prefix op s) Release.clause_operators
            = Some "==") as ->.
    { rewrite Hs, Hc. clear -Hdc. apply is_digit_cases in Hdc.
      repeat (apply elem_of_cons in Hdc; destruct Hdc as [->|Hdc];
              [reflexivity|]).
      apply elem_of_nil in Hdc. destruct Hdc. }
    cbn [mbind option_bind].
    assert (Release.drop_string (String.length "==") s = v) as ->.
    { rewrite Hs. unfold Release.drop_string.
      cbn [String.length list_ascii_of_string drop].
      apply string_of_list_ascii_of_string. }
    assert (Release.drop_spaces v = v) as ->.
    { rewrite Hc. cbn [Release.drop_spaces].
      rewrite (is_digit_not_space c Hdc). reflexivity. }
    rewrite Hwild, Hv. reflexivity. }
  unfold Release.satisfies, Release.parseRange.
  rewrite Htrim, Hsplit. rewrite Hs at 1. cbn [String.eqb Ascii.eqb].
  cbn [mapM mbind option_bind mret option_ret]. rewrite Htrim, Hclause.
  cbn [mbind option_bind mret option_ret Release.contains_all].
  unfold Release.contains, Release.contains_release.
  cbn [operator prefix version truthy String.eqb Ascii.eqb Bool.eqb andb].
  rewrite Hv. cbn [mbind option_bind].
  rewrite tuple_compare_refl. reflexivity.
Qed.

(** With the release-only library and a valid new version, nothing is
    left to assume: every non-null result other than the one of the
    [currentValue === currentVersion] return is satisfied by the new
    version. *)
Corollary getNewValue_validated_release (config : NewValueConfig)
    (R : string) (r : list N) :
  rangeStrategy config = "pin" \/
    currentValue config <> currentVersion config ->
  Release.explain (newVersion config) = Some r ->
  (@RangeTs.getNewValue Release.lib config = Ret (Some R) ->
   Release.satisfies (newVersion config) R = Ret true) /\
  (@Part001.getNewValue Release.lib config = Ret (Some R) ->
   Release.satisfies (newVersion config) R = Ret true).
Proof.
  destruct config as [cv rs cver nv].
  cbn [currentValue rangeStrategy currentVersion newVersion].
  intros Hcase Hv.
  assert (Release.satisfies nv ("==" +:+ nv) = Ret true) as Hpin
    by exact (Release_satisfies_pin nv r Hv).
  assert (Release.parseRange cv = Some [] ->
          Release.satisfies nv cv = Ret true) as Hempty.
  { intros Hparse. unfold Release.satisfies. rewrite Hparse, Hv.
    reflexivity. }
  split.
  - unfold RangeTs.getNewValue.
    apply (@RangeTs_getNewValueF_satisfied Release.lib); try done.
    intros Hnp R'.
    apply (@RangeTs_getNewValueF_satisfied Release.lib); try done.
    destruct Hcase as [|Hne]; [done|right; exact Hne].
  - unfold Part001.getNewValue.
    apply (@Part001_getNewValueF_satisfied Release.lib); try done.
    intros Hnp R'.
    apply (@Part001_getNewValueF_satisfied Release.lib); try done.
    destruct Hcase as [|Hne]; [done|right; exact Hne].
Qed.

(** A release-only version is not a constraint: no operator starts it. *)
Lemma Release_version_no_constraint v r :
  Release.explain v = Some r -> Release.parseRange v = None.
Proof.
  intros Hv. destruct (explain_shape v r Hv) as (Hplain & Hhead & Hlast).
  destruct Hhead as (c & v' & Hc & Hdc).
  destruct Hlast as (l & d & Hl & Hdd).
  assert (Release.trim v = v) as Htrim.
  { apply (Release_trim_fixed v c v' l d); [exact Hc| |exact Hl|];
      apply is_digit_not_space; assumption. }
  assert (Release.parse_clause v = None) as Hclause.
  { unfold Release.parse_clause.
    assert (List.find (fun op => String.prefix op v) Release.clause_operators
            = None) as ->; [|reflexivity].
    rewrite Hc. clear -Hdc. apply is_digit_cases in Hdc.
    repeat (apply elem_of_cons in Hdc; destruct Hdc as [->|Hdc];
            [reflexivity|]).
    apply elem_of_nil in Hdc. destruct Hdc. }
  unfold Release.parseRange. rewrite Htrim, (split_comma_plain v Hplain).
  rewrite Hc at 1. cbn [String.eqb].
  cbn [mapM mbind option_bind]. rewrite Htrim, Hclause. reflexivity.
Qed.

(** With the release-only library, the current version only has to be a
    valid version. *)
Corollary getNewValue_satisfied_unchanged_release (config : NewValueConfig)
    (ranges : list Range) (r : list N) :
  rangeStrategy config = "auto" \/ rangeStrategy config = "replace" ->
  Release.parseRange (currentValue config) = Some ranges ->
  Release.satisfies (newVersion config) (currentValue config) = Ret true ->
  Release.explain (currentVersion config) = Some r ->
  @RangeTs.getNewValue Release.lib config = Ret (Some (currentValue config)) /\
  @Part001.getNewValue Release.lib config = Ret (Some (currentValue config)).
Proof.
  destruct config as [cv rs cver nv].
  cbn [currentValue rangeStrategy currentVersion newVersion].
  intros Hrs Hparse Hsat Hver.
  assert (cv <> cver) as Hne.
  { intros ->. rewrite (Release_version_no_constraint cver r Hver) in Hparse.
    discriminate. }
  split.
  - apply (@RangeTs_getNewValueF_noop Release.lib _ cv rs cver nv ranges);
      assumption.
  - apply (@Part001_getNewValueF_noop Release.lib _ cv rs cver nv ranges);
      assumption.
Qed.
